(** * QETFileLock: per-file locking of .qet projects

    Shallow embedding of [sources/utils/qetfilelock.cpp] and of the part of
    Qt's [QLockFile] that it drives.  The registry [s_locks] is a finite map
    from canonical paths to lock objects, the disk is a finite map from marker
    paths to marker files, and every operation passes both explicitly. *)

From stdpp Require Import gmap strings list fin_maps.
From Stdlib Require Import ZArith Lia.

Open Scope string_scope.
Open Scope Z_scope.

(** ** The disk as QLockFile sees it *)

(** The holder triple a marker records. *)
Record LockInfo := mkLockInfo {
  li_pid : Z;
  li_hostname : string;
  li_appname : string
}.

(** A marker file: its parsed content ([None] when it does not parse into the
    three fields) and its last modification time in milliseconds. *)
Record MarkerFile := mkMarkerFile {
  mf_info : option LockInfo;
  mf_mtime : Z
}.

(** File-system accesses made through QLockFile, recorded in call order. *)
Inductive FsEvent :=
| EvOpenExcl (path : string)
| EvRead (path : string)
| EvRemove (path : string).

Record World := mkWorld {
  files : gmap string MarkerFile;
  fslog : list FsEvent
}.

(** The process that runs a registry. *)
Record Process := mkProcess {
  applicationPid : Z;
  machineHostName : string;
  applicationName : string
}.

Definition holder_of (self : Process) : LockInfo :=
  mkLockInfo (applicationPid self) (machineHostName self) (applicationName self).

(** Modelled from the spec: QLockFile::LockError, Qt's enumeration, absent
    from the sources; sections 4.1 and 7 name the same outcomes AlreadyLocked
    and IoFailure. *)
Inductive LockError := NoError | LockFailedError | PermissionError | UnknownError.

(** Modelled from the spec: the state of a QLockFile object, Qt's class,
    absent from the sources: the marker path, the stale time in milliseconds
    and whether this object holds the lock (Qt's private isLocked flag). *)
Record QLockFile := mkQLockFile {
  fileName : string;
  staleLockTime : Z;
  lf_isLocked : bool
}.

(** Modelled from the spec: QLockFile is Qt's class and is not part of the
    sources.  A new lock object has Qt's default stale time of 30 seconds and
    holds nothing. *)
Definition QLockFile_new (path : string) : QLockFile :=
  mkQLockFile path 30000 false.

(** Modelled from the spec: QLockFile::setStaleLockTime, absent from the
    sources, stores the threshold of the age heuristic. *)
Definition setStaleLockTime (l : QLockFile) (ms : Z) : QLockFile :=
  mkQLockFile (fileName l) ms (lf_isLocked l).

Definition log_event (e : FsEvent) (w : World) : World :=
  mkWorld (files w) (fslog w ++ [e]).

(** ** Calls on a system of registries *)

Inductive Call :=
| CallTryLock (filepath : string)
| CallUnlock (filepath : string)
| CallIsLocked (filepath : string)
| CallLockInfo (filepath : string) (out : LockInfo).

Inductive Result :=
| RetBool (b : bool)
| RetVoid
| RetInfo (b : bool) (out : LockInfo).

(** One call: who makes it, the time on the clock, and the call. *)
Record Event := mkEvent {
  ev_who : nat;
  ev_now : Z;
  ev_call : Call
}.

Record System := mkSystem {
  sys_world : World;
  sys_locks : nat → gmap string QLockFile
}.

Definition set_locks (i : nat) (t : gmap string QLockFile)
    (regs : nat → gmap string QLockFile) : nat → gmap string QLockFile :=
  λ j, if decide (j = i) then t else regs j.

Definition sys_init (w : World) : System := mkSystem w (λ _, ∅).

(** How often a path occurs as a key: of the table, or of the files on disk. *)
Definition key_count {V} (c : string) (t : gmap string V) : nat :=
  length (filter (λ kv, kv.1 = c) (map_to_list t)).

(** ** The scenarios of section 8 of the specification, as data

    Document [/docs/a.qet], reachable through the link [/link/a.qet] too;
    relative paths do not resolve.  Registries 0 and 1 run on hostA, the
    others on hostB.  No process has pid 999999.  Nothing can be written under
    [/readonly/]. *)

Definition canonical_scn (p : string) : string :=
  if String.eqb p "/link/a.qet" then "/docs/a.qet"
  else if String.prefix "/" p then p else "".

Definition running_scn (host : string) (pid : Z) (app : string) : bool :=
  negb (pid =? 999999).

Definition writable_scn (path : string) : bool :=
  negb (String.prefix "/readonly/" path).

Definition procs_scn (i : nat) : Process :=
  match i with
  | O => mkProcess 100 "hostA" "qelectrotech"
  | S O => mkProcess 200 "hostA" "qelectrotech"
  | _ => mkProcess 300 "hostB" "qelectrotech"
  end.

Definition empty_disk : World := mkWorld ∅ [].

(** A marker left by a process of hostA that no longer runs. *)
Definition stale_disk : World :=
  mkWorld {[ "/docs/a.qet.lock" :=
               mkMarkerFile (Some (mkLockInfo 999999 "hostA" "qelectrotech")) 0 ]} [].

(** A marker written at time 0 by a process of another host, hostC. *)
Definition foreign_disk : World :=
  mkWorld {[ "/docs/a.qet.lock" :=
               mkMarkerFile (Some (mkLockInfo 4242 "hostC" "qelectrotech")) 0 ]} [].

(** What the other registries do while registry 0 holds the document. *)
Definition busy_trace : list Event :=
  [ mkEvent 1 20 (CallTryLock "/link/a.qet");
    mkEvent 1 21 (CallLockInfo "/docs/a.qet" (mkLockInfo 0 "" ""));
    mkEvent 2 22 (CallTryLock "/docs/b.qet");
    mkEvent 0 23 (CallUnlock "/docs/b.qet");
    mkEvent 2 24 (CallUnlock "/docs/a.qet");
    mkEvent 0 25 (CallIsLocked "/docs/a.qet") ].

(** Registry 0 locks the document, then the others are busy. *)
Definition held_trace : list Event :=
  mkEvent 0 10 (CallTryLock "/docs/a.qet") :: busy_trace.

Section Registry.

(** QFileInfo(filepath).canonicalFilePath(): the empty string when the path
    cannot be resolved.  It is one function throughout: the documents
    themselves are not created, moved or deleted between the calls. *)
Variable canonicalFilePath : string → string.

(** Whether a process with this pid and application name runs on the named
    host. *)
Variable isProcessRunning : string → Z → string → bool.

(** Whether the file system lets a marker be created or removed at a path. *)
Variable writable : string → bool.

(** Modelled from the spec: the atomic exclusive create of the marker
    (section 4.1, create_and_acquire), absent from the sources.  An existing
    file makes it fail, a refused create is an I/O failure, otherwise the
    marker is written with the caller's holder triple. *)
Definition tryLock_sys (self : Process) (now : Z) (l : QLockFile) (w : World)
  : LockError * World :=
  let w1 := log_event (EvOpenExcl (fileName l)) w in
  match files w !! fileName l with
  | Some _ => (LockFailedError, w1)
  | None =>
      if writable (fileName l)
      then (NoError,
            mkWorld (<[fileName l := mkMarkerFile (Some (holder_of self)) now]> (files w1))
                    (fslog w1))
      else (PermissionError, w1)
  end.

(** Modelled from the spec: reading the holder triple of a marker without
    acquiring it (section 4.1, read_holder_info), absent from the sources. *)
Definition getLockInfo_helper (path : string) (w : World) : option LockInfo * World :=
  (files w !! path ≫= mf_info, log_event (EvRead path) w).

(** Modelled from the spec: the stale detection policy of section 4.1,
    absent from the sources.  A marker of the local host is stale when its
    holder does not run; any marker is stale by age when the stale time is
    positive and the marker is older (a marker that does not parse is judged
    by age alone); a stale time of 0 switches the age heuristic off, as Qt
    documents it for locks held over a long time. *)
Definition isApparentlyStale (self : Process) (now : Z) (l : QLockFile) (w : World)
  : bool * World :=
  let '(oi, w1) := getLockInfo_helper (fileName l) w in
  let local_dead :=
    match oi with
    | Some info =>
        bool_decide (li_hostname info = machineHostName self)
        && negb (isProcessRunning (machineHostName self) (li_pid info) (li_appname info))
    | None => false
    end in
  let age :=
    match files w !! fileName l with
    | Some m => now - mf_mtime m
    | None => now
    end in
  (local_dead || ((0 <? staleLockTime l) && (staleLockTime l <? Z.abs age)), w1).

(** Modelled from the spec: deleting a marker found stale, absent from the
    sources. *)
Definition removeStaleLock (l : QLockFile) (w : World) : bool * World :=
  let w1 := log_event (EvRemove (fileName l)) w in
  match files w !! fileName l with
  | Some _ =>
      if writable (fileName l)
      then (true, mkWorld (delete (fileName l) (files w1)) (fslog w1))
      else (false, w1)
  | None => (false, w1)
  end.

(** The lock object with its flag set. *)
Definition set_locked (l : QLockFile) (b : bool) : QLockFile :=
  mkQLockFile (fileName l) (staleLockTime l) b.

(** Modelled from the spec: QLockFile::tryLock with its default timeout of
    0, absent from the sources: one exclusive create; on conflict a
    staleness check; a stale marker is deleted and the create retried
    exactly once. *)
Definition QLockFile_tryLock (self : Process) (now : Z) (l : QLockFile) (w : World)
  : bool * QLockFile * World :=
  match tryLock_sys self now l w with
  | (NoError, w1) => (true, set_locked l true, w1)
  | (LockFailedError, w1) =>
      if lf_isLocked l then (false, l, w1)
      else
        let '(stale, w2) := isApparentlyStale self now l w1 in
        if stale then
          let '(removed, w3) := removeStaleLock l w2 in
          if removed then
            match tryLock_sys self now l w3 with
            | (NoError, w4) => (true, set_locked l true, w4)
            | (_, w4) => (false, l, w4)
            end
          else (false, l, w3)
        else (false, l, w2)
  | (_, w1) => (false, l, w1)
  end.

(** Modelled from the spec: QLockFile::unlock (section 4.1, release), absent
    from the sources: nothing when the object holds no lock, otherwise the
    marker is removed (a refused removal leaves it) and the object no longer
    holds the lock. *)
Definition QLockFile_unlock (l : QLockFile) (w : World) : QLockFile * World :=
  if lf_isLocked l then
    let w1 := log_event (EvRemove (fileName l)) w in
    (set_locked l false,
     if writable (fileName l)
     then mkWorld (delete (fileName l) (files w1)) (fslog w1)
     else w1)
  else (l, w).

(** Modelled from the spec: the destructor of QLockFile, absent from the
    sources, releases the lock if the object still holds it. *)
Definition QLockFile_delete (l : QLockFile) (w : World) : World :=
  snd (QLockFile_unlock l w).

(** Modelled from the spec: QLockFile::getLockInfo, absent from the sources:
    the out-parameters are written only when the marker parses. *)
Definition QLockFile_getLockInfo (l : QLockFile) (out : LockInfo) (w : World)
  : bool * LockInfo * World :=
  match getLockInfo_helper (fileName l) w with
  | (Some info, w1) => (true, info, w1)
  | (None, w1) => (false, out, w1)
  end.

(** ** QETFileLock *)

(** QETFileLock::tryLock, qetfilelock.cpp lines 33-54. *)
Definition tryLock (self : Process) (now : Z) (filepath : string)
    (s_locks : gmap string QLockFile) (w : World)
  : bool * gmap string QLockFile * World :=
  let canonical := canonicalFilePath filepath in
  if bool_decide (canonical = "") then (false, s_locks, w)
  else if bool_decide (is_Some (s_locks !! canonical)) then (true, s_locks, w)
  else
    let lock_path := canonical +:+ ".lock" in
    let lock := setStaleLockTime (QLockFile_new lock_path) 0 in
    match QLockFile_tryLock self now lock w with
    | (true, lock', w') => (true, <[canonical := lock']> s_locks, w')
    | (false, lock', w') => (false, s_locks, QLockFile_delete lock' w')
    end.

(** QETFileLock::unlock, qetfilelock.cpp lines 61-72. *)
Definition unlock (filepath : string) (s_locks : gmap string QLockFile) (w : World)
  : gmap string QLockFile * World :=
  let canonical := canonicalFilePath filepath in
  if bool_decide (canonical = "") then (s_locks, w)
  else
    match s_locks !! canonical with
    | Some lock =>
        let '(lock', w') := QLockFile_unlock lock w in
        (delete canonical s_locks, QLockFile_delete lock' w')
    | None => (s_locks, w)
    end.

(** QETFileLock::isLocked, qetfilelock.cpp lines 79-83. *)
Definition isLocked (filepath : string) (s_locks : gmap string QLockFile) : bool :=
  let canonical := canonicalFilePath filepath in
  bool_decide (is_Some (s_locks !! canonical)).

(** QETFileLock::lockInfo, qetfilelock.cpp lines 94-106.  [out] holds the
    values of the three out-parameters before the call; the result carries
    their values after it. *)
Definition lockInfo (filepath : string) (out : LockInfo) (w : World)
  : bool * LockInfo * World :=
  let canonical := canonicalFilePath filepath in
  if bool_decide (canonical = "") then (false, out, w)
  else
    let lock_path := canonical +:+ ".lock" in
    let lock := QLockFile_new lock_path in
    let '(r, out', w') := QLockFile_getLockInfo lock out w in
    (r, out', QLockFile_delete lock w').

(** ** Several registries on one disk

    [s_locks] is a static member: a process has one registry.  Registries
    of different processes share only the disk.  Registry [i] belongs to
    process [procs i]. *)

Variable procs : nat → Process.

(** One call of one registry, taken as a whole: its result and the system
    after it. *)
Definition sys_call (e : Event) (S : System) : Result * System :=
  let i := ev_who e in
  match ev_call e with
  | CallTryLock p =>
      let '(r, t, w) := tryLock (procs i) (ev_now e) p (sys_locks S i) (sys_world S) in
      (RetBool r, mkSystem w (set_locks i t (sys_locks S)))
  | CallUnlock p =>
      let '(t, w) := unlock p (sys_locks S i) (sys_world S) in
      (RetVoid, mkSystem w (set_locks i t (sys_locks S)))
  | CallIsLocked p =>
      (RetBool (isLocked p (sys_locks S i)), S)
  | CallLockInfo p out =>
      let '(r, out', w) := lockInfo p out (sys_world S) in
      (RetInfo r out', mkSystem w (sys_locks S))
  end.

(** A history of calls, in order. *)
Definition sys_run (tr : list Event) (S : System) : System :=
  fold_left (λ S e, snd (sys_call e S)) tr S.

(** Whether an event is registry [i] releasing canonical path [c]. *)
Definition is_unlock_of (i : nat) (c : string) (e : Event) : bool :=
  match ev_call e with
  | CallUnlock p => bool_decide (ev_who e = i) && bool_decide (canonicalFilePath p = c)
  | _ => false
  end.

Definition no_unlock_of (i : nat) (c : string) (tr : list Event) : bool :=
  forallb (λ e, negb (is_unlock_of i c e)) tr.

(** ** Predicates used in the statements *)

(** The verdict of [isApparentlyStale] on a marker, for stale time [T]. *)
Definition marker_is_stale (self : Process) (now T : Z) (m : MarkerFile) : bool :=
  match mf_info m with
  | Some info =>
      bool_decide (li_hostname info = machineHostName self)
      && negb (isProcessRunning (machineHostName self) (li_pid info) (li_appname info))
  | None => false
  end
  || ((0 <? T) && (T <? Z.abs (now - mf_mtime m))).

(** Whether [QLockFile::tryLock] with stale time [T] gets the marker at
    [path]: the path is free, or its marker is stale, and the file system
    lets the marker be written. *)
Definition can_acquire (self : Process) (now T : Z) (path : string) (w : World) : bool :=
  match files w !! path with
  | None => writable path
  | Some m => marker_is_stale self now T m && writable path
  end.

(** The marker that process [self] writes at time [now]. *)
Definition marker_of (self : Process) (now : Z) : MarkerFile :=
  mkMarkerFile (Some (holder_of self)) now.


(** Every entry of every registry is a held lock object of the entry's own
    marker path, and that marker is on disk with the owner's triple; no
    canonical path is held by two registries. *)
Definition sys_inv (S : System) : Prop :=
  (∀ i c l, sys_locks S i !! c = Some l →
     c ≠ "" ∧ fileName l = c +:+ ".lock" ∧ lf_isLocked l = true
     ∧ writable (c +:+ ".lock") = true
     ∧ ∃ t, files (sys_world S) !! (c +:+ ".lock") = Some (marker_of (procs i) t))
  ∧ (∀ i j c, i ≠ j → is_Some (sys_locks S i !! c) → sys_locks S j !! c = None).

(** Every registry belongs to a process that runs. *)
Definition all_running : Prop :=
  ∀ i, isProcessRunning (machineHostName (procs i)) (applicationPid (procs i))
         (applicationName (procs i)) = true.

(** Every lock object of a table is the one [tryLock] builds for its key: the
    marker path of the key, stale time 0, holding the lock. *)
Definition locks_shape (t : gmap string QLockFile) : Prop :=
  ∀ c l, t !! c = Some l → c ≠ "" ∧ l = mkQLockFile (c +:+ ".lock") 0 true.

(** The path a call is made on. *)
Definition call_path (k : Call) : string :=
  match k with
  | CallTryLock p | CallUnlock p | CallIsLocked p | CallLockInfo p _ => p
  end.

(** ** QLockFile on the disk *)

Lemma files_log_event e w : files (log_event e w) = files w.
Proof. done. Qed.

Lemma tryLock_sys_free self now l w :
  files w !! fileName l = None → writable (fileName l) = true →
  tryLock_sys self now l w =
    (NoError, mkWorld (<[fileName l := marker_of self now]> (files w))
                      (fslog w ++ [EvOpenExcl (fileName l)])).
Proof. intros Hn Hw. unfold tryLock_sys. by rewrite Hn, Hw. Qed.

Lemma isApparentlyStale_verdict self now l w m :
  files w !! fileName l = Some m →
  isApparentlyStale self now l w =
    (marker_is_stale self now (staleLockTime l) m, log_event (EvRead (fileName l)) w).
Proof.
  intros Hm. unfold isApparentlyStale, getLockInfo_helper, marker_is_stale.
  rewrite Hm. simpl. done.
Qed.

(** What [QLockFile::tryLock] does to the disk, by cases on the marker. *)
Lemma QLockFile_tryLock_files self now l w :
  lf_isLocked l = false →
  ∃ lg,
    QLockFile_tryLock self now l w =
      if can_acquire self now (staleLockTime l) (fileName l) w
      then (true, set_locked l true,
            mkWorld (<[fileName l := marker_of self now]> (files w)) lg)
      else (false, l, mkWorld (files w) lg).
Proof.
  intros Hl. unfold QLockFile_tryLock, can_acquire.
  destruct (files w !! fileName l) as [m|] eqn:Hm.
  - unfold tryLock_sys at 1. rewrite Hm, Hl.
    rewrite (isApparentlyStale_verdict _ _ _ _ m) by done.
    destruct (marker_is_stale self now (staleLockTime l) m); simpl; [|eauto].
    unfold removeStaleLock. simpl. rewrite Hm.
    destruct (writable (fileName l)) eqn:Hw; [|eauto].
    rewrite tryLock_sys_free by (simpl; first [apply lookup_delete_eq | done]).
    simpl. rewrite insert_delete_eq. eauto.
  - destruct (writable (fileName l)) eqn:Hw.
    + rewrite tryLock_sys_free by done. eauto.
    + unfold tryLock_sys. rewrite Hm, Hw. eauto.
Qed.

Lemma QLockFile_unlock_idle l w : lf_isLocked l = false → QLockFile_unlock l w = (l, w).
Proof. intros Hl. unfold QLockFile_unlock. by rewrite Hl. Qed.

Lemma QLockFile_delete_idle l w : lf_isLocked l = false → QLockFile_delete l w = w.
Proof. intros Hl. unfold QLockFile_delete. by rewrite QLockFile_unlock_idle. Qed.

(** ** The four operations, by cases *)

(** The three ways through [tryLock]: the path does not resolve, the table
    already has it, or the marker is tried. *)
Lemma tryLock_cases self now p t w :
  let c := canonicalFilePath p in
  (c = "" ∧ tryLock self now p t w = (false, t, w))
  ∨ (c ≠ "" ∧ is_Some (t !! c) ∧ tryLock self now p t w = (true, t, w))
  ∨ (c ≠ "" ∧ t !! c = None ∧ ∃ lg,
       tryLock self now p t w =
         if can_acquire self now 0 (c +:+ ".lock") w
         then (true, <[c := mkQLockFile (c +:+ ".lock") 0 true]> t,
               mkWorld (<[c +:+ ".lock" := marker_of self now]> (files w)) lg)
         else (false, t, mkWorld (files w) lg)).
Proof.
  intros c. unfold tryLock. fold c.
  case_bool_decide as Hc; [by left|].
  case_bool_decide as Ht; [right; left; done|].
  right; right. split; [done|]. split; [by apply eq_None_not_Some|].
  destruct (QLockFile_tryLock_files self now
              (setStaleLockTime (QLockFile_new (c +:+ ".lock")) 0) w) as [lg Hq]; [done|].
  rewrite Hq. simpl.
  destruct (can_acquire self now 0 (c +:+ ".lock") w); simpl; eauto.
Qed.

Lemma unlock_cases p t w :
  let c := canonicalFilePath p in
  match t !! c with
  | Some l =>
      if bool_decide (c = "") then unlock p t w = (t, w)
      else unlock p t w =
             (delete c t,
              QLockFile_delete (QLockFile_unlock l w).1 (QLockFile_unlock l w).2)
  | None => unlock p t w = (t, w)
  end.
Proof.
  intros c. unfold unlock. fold c.
  destruct (t !! c) as [l|]; case_bool_decide; try done.
  by destruct (QLockFile_unlock l w).
Qed.

(** [lockInfo] reads: the disk keeps its files, the log gains one read. *)
Lemma lockInfo_cases p out w :
  let c := canonicalFilePath p in
  lockInfo p out w =
    if bool_decide (c = "") then (false, out, w)
    else match files w !! (c +:+ ".lock") ≫= mf_info with
         | Some info => (true, info, log_event (EvRead (c +:+ ".lock")) w)
         | None => (false, out, log_event (EvRead (c +:+ ".lock")) w)
         end.
Proof.
  intros c. unfold lockInfo. fold c. case_bool_decide; [done|].
  unfold QLockFile_getLockInfo, getLockInfo_helper. simpl.
  by destruct (files w !! (c +:+ ".lock") ≫= mf_info).
Qed.

(** ** Marker paths *)

Lemma string_length_app (a s : string) :
  String.length (a +:+ s) = (String.length a + String.length s)%nat.
Proof. induction a as [|x a IH]; simpl; [done|]. by rewrite IH. Qed.

Lemma string_app_inv_tail (s a b : string) : a +:+ s = b +:+ s → a = b.
Proof.
  revert b. induction a as [|x a IH]; intros [|y b] Heq.
  - done.
  - apply (f_equal String.length) in Heq.
    rewrite !string_length_app in Heq. simpl in Heq. lia.
  - apply (f_equal String.length) in Heq.
    rewrite !string_length_app in Heq. simpl in Heq. lia.
  - cbn [String.append] in Heq. injection Heq as -> Heq. f_equal. by apply IH.
Qed.

Lemma lock_path_inj (c c' : string) : c +:+ ".lock" = c' +:+ ".lock" → c = c'.
Proof. apply string_app_inv_tail. Qed.

Lemma lock_path_ne (c c' : string) : c ≠ c' → c +:+ ".lock" ≠ c' +:+ ".lock".
Proof. intros Hne Heq. by apply Hne, lock_path_inj. Qed.

(** ** The registries of a system *)

Lemma set_locks_eq i t regs : set_locks i t regs i = t.
Proof. unfold set_locks. by rewrite decide_True. Qed.

Lemma set_locks_ne i j t regs : j ≠ i → set_locks i t regs j = regs j.
Proof. intros Hne. unfold set_locks. by rewrite decide_False. Qed.

Lemma sys_run_cons e tr S : sys_run (e :: tr) S = sys_run tr (sys_call e S).2.
Proof. done. Qed.

(** With stale time 0, the marker of a running registry is not stale for
    anyone. *)
Lemma running_marker_not_stale (Hrun : all_running) self now j t :
  marker_is_stale self now 0 (marker_of (procs j) t) = false.
Proof.
  unfold marker_is_stale. simpl.
  rewrite orb_false_r. case_bool_decide as Hh; [|done].
  simpl. rewrite <- Hh. by rewrite Hrun.
Qed.

(** Only the owner's [unlock] of the same canonical path takes an entry out
    of a registry. *)
Lemma sys_call_keeps_entry e S i c :
  is_Some (sys_locks S i !! c) → is_unlock_of i c e = false →
  is_Some (sys_locks (sys_call e S).2 i !! c).
Proof.
  intros Hin Hnu. destruct e as [k now call]. unfold sys_call, is_unlock_of in *.
  simpl in *. destruct call as [p|p|p|p out]; simpl.
  - destruct (tryLock_cases (procs k) now p (sys_locks S k) (sys_world S))
      as [[_ ->]|[(_ & _ & ->)|(_ & Hnone & lg & ->)]]; simpl.
    + destruct (decide (i = k)) as [->|]; [by rewrite set_locks_eq|by rewrite set_locks_ne].
    + destruct (decide (i = k)) as [->|]; [by rewrite set_locks_eq|by rewrite set_locks_ne].
    + destruct (can_acquire _ _ _ _ _); simpl;
        (destruct (decide (i = k)) as [->|]; [rewrite set_locks_eq|by rewrite set_locks_ne]);
        [|done].
      rewrite lookup_insert. case_decide; [done|]. simpl. done.
  - pose proof (unlock_cases p (sys_locks S k) (sys_world S)) as Hu. simpl in Hu.
    destruct (unlock p (sys_locks S k) (sys_world S)) as [t' w'] eqn:Hun. simpl.
    destruct (decide (i = k)) as [->|Hik]; [rewrite set_locks_eq|by rewrite set_locks_ne].
    destruct (sys_locks S k !! canonicalFilePath p) as [l|] eqn:Hl.
    + case_bool_decide as Hc; [by inversion Hu; subst|].
      inversion Hu; subst.
      rewrite bool_decide_eq_true_2 in Hnu by done. simpl in Hnu.
      apply bool_decide_eq_false in Hnu.
      by rewrite lookup_delete_ne.
    + by inversion Hu; subst.
  - done.
  - by destruct (lockInfo p out (sys_world S)) as [[r o] w'].
Qed.

Lemma sys_run_keeps_entry tr S i c :
  is_Some (sys_locks S i !! c) → no_unlock_of i c tr = true →
  is_Some (sys_locks (sys_run tr S) i !! c).
Proof.
  revert S. induction tr as [|e tr IH]; intros S Hin Hno; [done|].
  simpl in Hno. apply andb_true_iff in Hno as [He Hno].
  rewrite sys_run_cons. apply IH; [|done].
  apply sys_call_keeps_entry; [done|]. by apply negb_true_iff.
Qed.

(** A [tryLock] that returns true leaves the canonical path in the table. *)
Lemma tryLock_true_entry self now p t w :
  (tryLock self now p t w).1.1 = true →
  canonicalFilePath p ≠ "" ∧ is_Some ((tryLock self now p t w).1.2 !! canonicalFilePath p).
Proof.
  destruct (tryLock_cases self now p t w)
    as [[_ ->]|[(Hc & Hin & ->)|(Hc & Hnone & lg & ->)]]; simpl; [done|done|].
  destruct (can_acquire _ _ _ _ _); simpl; [|done].
  intros _. split; [done|]. rewrite lookup_insert_eq. done.
Qed.

(** [unlock] of a held entry removes the entry and its marker. *)
Lemma unlock_held p t w l :
  let c := canonicalFilePath p in
  t !! c = Some l → c ≠ "" → fileName l = c +:+ ".lock" → lf_isLocked l = true →
  writable (c +:+ ".lock") = true →
  unlock p t w =
    (delete c t,
     mkWorld (delete (c +:+ ".lock") (files w)) (fslog w ++ [EvRemove (c +:+ ".lock")])).
Proof.
  intros c Hl Hc Hf Hlk Hw.
  pose proof (unlock_cases p t w) as Hu. simpl in Hu. fold c in Hu.
  rewrite Hl, bool_decide_eq_false_2 in Hu by done. rewrite Hu.
  unfold QLockFile_unlock. rewrite Hlk, Hf, Hw. simpl.
  by rewrite QLockFile_delete_idle.
Qed.

(** ** The invariant of a system of running registries *)

Lemma sys_inv_init w : sys_inv (sys_init w).
Proof. split; simpl; intros; by simplify_map_eq. Qed.

Lemma sys_inv_same S S' :
  files (sys_world S') = files (sys_world S) →
  (∀ i, sys_locks S' i = sys_locks S i) →
  sys_inv S → sys_inv S'.
Proof.
  intros Hf Ht [HA HB]. split.
  - intros i c l. rewrite Ht, Hf. apply HA.
  - intros i j c. rewrite !Ht. apply HB.
Qed.

Lemma set_locks_same i regs j : set_locks i (regs i) regs j = regs j.
Proof. unfold set_locks. by case_decide; subst. Qed.

(** A marker path that some running registry holds cannot be acquired. *)
Lemma held_not_acquirable (Hrun : all_running) S j c self now :
  sys_inv S → is_Some (sys_locks S j !! c) →
  can_acquire self now 0 (c +:+ ".lock") (sys_world S) = false.
Proof.
  intros [HA _] [l Hl]. destruct (HA j c l Hl) as (_ & _ & _ & _ & t & Hm).
  unfold can_acquire. rewrite Hm. by rewrite running_marker_not_stale.
Qed.

Lemma can_acquire_writable self now T path w :
  can_acquire self now T path w = true → writable path = true.
Proof.
  unfold can_acquire. destruct (files w !! path); [|done].
  intros H. by apply andb_true_iff in H as [_ ?].
Qed.

Lemma sys_inv_tryLock (Hrun : all_running) S k now p :
  sys_inv S → sys_inv (sys_call (mkEvent k now (CallTryLock p)) S).2.
Proof.
  intros Hinv. unfold sys_call. simpl.
  destruct (tryLock_cases (procs k) now p (sys_locks S k) (sys_world S))
    as [[_ ->]|[(_ & _ & ->)|(Hc & Hnone & lg & ->)]]; simpl.
  - eapply sys_inv_same; [| |exact Hinv]; [done|]. intros i. apply set_locks_same.
  - eapply sys_inv_same; [| |exact Hinv]; [done|]. intros i. apply set_locks_same.
  - set (c := canonicalFilePath p) in *.
    destruct (can_acquire (procs k) now 0 (c +:+ ".lock") (sys_world S)) eqn:Hacq; simpl;
      [|eapply sys_inv_same; [| |exact Hinv]; [done|]; intros i; apply set_locks_same].
    assert (Hfree : ∀ j, sys_locks S j !! c = None).
    { intros j. apply eq_None_not_Some. intros Hj.
      rewrite (held_not_acquirable Hrun S j c) in Hacq by done. done. }
    pose proof (can_acquire_writable _ _ _ _ _ Hacq) as Hw.
    destruct Hinv as [HA HB]. split; simpl.
    + intros i c' l. destruct (decide (i = k)) as [->|Hik].
      * rewrite set_locks_eq. rewrite lookup_insert. case_decide as Hcc.
        -- subst c'. intros [= <-]. simpl. repeat split; try done.
           exists now. by rewrite lookup_insert_eq.
        -- intros Hl. destruct (HA k c' l Hl) as (? & ? & ? & ? & t & Hm).
           repeat split; try done. exists t.
           rewrite lookup_insert_ne; [done|]. by apply lock_path_ne.
      * rewrite set_locks_ne by done. intros Hl.
        destruct (HA i c' l Hl) as (? & ? & ? & ? & t & Hm).
        repeat split; try done. exists t.
        rewrite lookup_insert_ne; [done|]. apply lock_path_ne.
        intros <-. rewrite Hfree in Hl. done.
    + intros i j c' Hij.
      destruct (decide (i = k)) as [->|Hik];
        [rewrite set_locks_eq, (set_locks_ne k j) by done
        |rewrite (set_locks_ne k i) by done].
      * rewrite lookup_insert. case_decide as Hcc; [subst c'; intros _; apply Hfree|].
        by apply HB.
      * destruct (decide (j = k)) as [->|Hjk];
          [rewrite set_locks_eq|rewrite set_locks_ne by done; by apply HB].
        intros Hi. rewrite lookup_insert. case_decide as Hcc.
        -- subst c'. rewrite Hfree in Hi. by destruct Hi.
        -- by apply (HB i k).
Qed.

Lemma sys_inv_unlock S k now p :
  sys_inv S → sys_inv (sys_call (mkEvent k now (CallUnlock p)) S).2.
Proof.
  intros Hinv. unfold sys_call. simpl.
  set (c := canonicalFilePath p).
  destruct (sys_locks S k !! c) as [l|] eqn:Hl.
  - destruct Hinv as [HA HB].
    destruct (HA k c l Hl) as (Hc & Hf & Hlk & Hw & t & Hm).
    rewrite (unlock_held p _ _ l) by done. fold c. split; simpl.
    + intros i c' l'. destruct (decide (i = k)) as [->|Hik].
      * rewrite set_locks_eq. rewrite lookup_delete. case_decide as Hcc; [done|].
        intros Hl'. destruct (HA k c' l' Hl') as (? & ? & ? & ? & t' & Hm').
        repeat split; try done. exists t'.
        rewrite lookup_delete_ne; [done|]. by apply lock_path_ne.
      * rewrite set_locks_ne by done. intros Hl'.
        destruct (HA i c' l' Hl') as (? & ? & ? & ? & t' & Hm').
        repeat split; try done. exists t'.
        rewrite lookup_delete_ne; [done|]. apply lock_path_ne.
        intros <-. rewrite (HB k i c) in Hl'; [done|done|by eexists].
    + intros i j c' Hij.
      destruct (decide (i = k)) as [->|Hik];
        [rewrite set_locks_eq, (set_locks_ne k j) by done
        |rewrite (set_locks_ne k i) by done].
      * rewrite lookup_delete. case_decide; [by intros []|]. by apply HB.
      * destruct (decide (j = k)) as [->|Hjk];
          [rewrite set_locks_eq|rewrite set_locks_ne by done; by apply HB].
        intros Hi. rewrite lookup_delete. case_decide; [done|]. by apply (HB i k).
  - pose proof (unlock_cases p (sys_locks S k) (sys_world S)) as Hu. simpl in Hu.
    fold c in Hu. rewrite Hl in Hu. rewrite Hu. simpl.
    eapply sys_inv_same; [| |exact Hinv]; [done|]. intros i. apply set_locks_same.
Qed.

Lemma lockInfo_files p out w : files (lockInfo p out w).2 = files w.
Proof.
  rewrite lockInfo_cases. case_bool_decide; [done|].
  by destruct (files w !! _ ≫= mf_info).
Qed.

Lemma sys_inv_call (Hrun : all_running) e S : sys_inv S → sys_inv (sys_call e S).2.
Proof.
  destruct e as [k now [p|p|p|p out]].
  - by apply sys_inv_tryLock.
  - by apply sys_inv_unlock.
  - done.
  - intros Hinv. unfold sys_call. simpl.
    pose proof (lockInfo_files p out (sys_world S)) as Hf.
    destruct (lockInfo p out (sys_world S)) as [[r o] w']. simpl in *.
    by eapply sys_inv_same; [| |exact Hinv].
Qed.

Lemma sys_inv_run (Hrun : all_running) tr S : sys_inv S → sys_inv (sys_run tr S).
Proof.
  revert S. induction tr as [|e tr IH]; intros S Hinv; [done|].
  rewrite sys_run_cons. by apply IH, sys_inv_call.
Qed.

Lemma sys_call_tryLock i now p S :
  sys_call (mkEvent i now (CallTryLock p)) S =
    (RetBool (tryLock (procs i) now p (sys_locks S i) (sys_world S)).1.1,
     mkSystem (tryLock (procs i) now p (sys_locks S i) (sys_world S)).2
              (set_locks i (tryLock (procs i) now p (sys_locks S i) (sys_world S)).1.2
                 (sys_locks S))).
Proof.
  unfold sys_call. simpl.
  by destruct (tryLock (procs i) now p (sys_locks S i) (sys_world S)) as [[r t] w].
Qed.

Lemma sys_call_unlock i now p S :
  sys_call (mkEvent i now (CallUnlock p)) S =
    (RetVoid,
     mkSystem (unlock p (sys_locks S i) (sys_world S)).2
              (set_locks i (unlock p (sys_locks S i) (sys_world S)).1 (sys_locks S))).
Proof.
  unfold sys_call. simpl.
  by destruct (unlock p (sys_locks S i) (sys_world S)) as [t w].
Qed.

Lemma sys_call_lockInfo i now p out S :
  sys_call (mkEvent i now (CallLockInfo p out)) S =
    (RetInfo (lockInfo p out (sys_world S)).1.1 (lockInfo p out (sys_world S)).1.2,
     mkSystem (lockInfo p out (sys_world S)).2 (sys_locks S)).
Proof.
  unfold sys_call. simpl.
  by destruct (lockInfo p out (sys_world S)) as [[r o] w].
Qed.

(** After any history, a [tryLock] of registry [i] that returned true, and
    any further calls other than [i] releasing that canonical path, the path
    is in the table of [i] and the invariant holds. *)
Lemma holds_after (Hrun : all_running) w0 pre mid i now p :
  (sys_call (mkEvent i now (CallTryLock p)) (sys_run pre (sys_init w0))).1 = RetBool true →
  no_unlock_of i (canonicalFilePath p) mid = true →
  let S2 := sys_run mid (sys_call (mkEvent i now (CallTryLock p))
                           (sys_run pre (sys_init w0))).2 in
  sys_inv S2 ∧ canonicalFilePath p ≠ "" ∧ is_Some (sys_locks S2 i !! canonicalFilePath p).
Proof.
  intros Hfirst Hmid S2.
  assert (Hinv : sys_inv S2).
  { apply sys_inv_run, sys_inv_call, sys_inv_run, sys_inv_init; done. }
  split; [done|]. subst S2.
  rewrite sys_call_tryLock in Hfirst |- *. simpl in Hfirst.
  injection Hfirst as Hfirst. apply tryLock_true_entry in Hfirst as [Hc Hin].
  split; [done|]. apply sys_run_keeps_entry; [|done].
  simpl. by rewrite set_locks_eq.
Qed.

(** The result and the files of [tryLock] depend on the disk only through
    its files, not through the log. *)
Lemma tryLock_files_only self now p t w1 w2 :
  files w1 = files w2 →
  (tryLock self now p t w1).1 = (tryLock self now p t w2).1
  ∧ files (tryLock self now p t w1).2 = files (tryLock self now p t w2).2.
Proof.
  intros Hf.
  assert (Hacq : ∀ path, can_acquire self now 0 path w1 = can_acquire self now 0 path w2).
  { intros path. unfold can_acquire. by rewrite Hf. }
  destruct (tryLock_cases self now p t w1)
    as [[H1 ->]|[(H1 & H1' & ->)|(H1 & H1' & lg1 & ->)]];
  destruct (tryLock_cases self now p t w2)
    as [[H2 ->]|[(H2 & H2' & ->)|(H2 & H2' & lg2 & ->)]];
  simpl; try done; try (rewrite H1' in H2'; by destruct H2');
    try (rewrite H2' in H1'; by destruct H1').
  rewrite Hacq. destruct (can_acquire _ _ _ _ w2); simpl; by rewrite Hf.
Qed.

Lemma filter_none {A} (P : A → Prop) `{∀ x, Decision (P x)} (l : list A) :
  Forall (λ x, ¬ P x) l → filter P l = [].
Proof.
  induction 1 as [|x l Hx _ IH]; [done|]. by rewrite filter_cons_False.
Qed.

Lemma key_count_entry {V} c (t : gmap string V) l :
  t !! c = Some l → key_count c t = 1%nat.
Proof.
  intros Hl. unfold key_count.
  rewrite <- (map_to_list_delete t c l Hl).
  rewrite filter_cons_True by done. simpl. f_equal.
  rewrite filter_none; [done|].
  apply Forall_forall. intros [k v] Hin Hk. simpl in Hk. subst k.
  apply elem_of_map_to_list in Hin. by rewrite lookup_delete_eq in Hin.
Qed.

(** The whole of [QLockFile::tryLock] on a stale marker: the failed create,
    the read of the holder, the removal, the create that succeeds. *)
Lemma QLockFile_tryLock_stale self now l w m :
  lf_isLocked l = false → files w !! fileName l = Some m →
  marker_is_stale self now (staleLockTime l) m = true →
  writable (fileName l) = true →
  QLockFile_tryLock self now l w =
    (true, set_locked l true,
     mkWorld (<[fileName l := marker_of self now]> (files w))
             (fslog w ++ [EvOpenExcl (fileName l); EvRead (fileName l);
                          EvRemove (fileName l); EvOpenExcl (fileName l)])).
Proof.
  intros Hl Hm Hst Hw. unfold QLockFile_tryLock.
  unfold tryLock_sys at 1. rewrite Hm, Hl.
  rewrite (isApparentlyStale_verdict _ _ _ _ m) by done. rewrite Hst.
  unfold removeStaleLock. simpl. rewrite Hm, Hw.
  rewrite tryLock_sys_free by (simpl; first [apply lookup_delete_eq | done]).
  simpl. rewrite insert_delete_eq. by rewrite <- !app_assoc.
Qed.

(** With a positive stale time, a marker older than it is stale whoever wrote
    it: the age heuristic that [tryLock] switches off with stale time 0. *)
Lemma aged_marker_is_stale self now T m :
  0 < T → T < Z.abs (now - mf_mtime m) → marker_is_stale self now T m = true.
Proof.
  intros HT Hage. unfold marker_is_stale.
  apply orb_true_iff. right. apply andb_true_iff. split; by apply Z.ltb_lt.
Qed.


(** No call puts the empty string into a table. *)
Lemma no_empty_key_call e S :
  (∀ i, sys_locks S i !! "" = None) → ∀ i, sys_locks (sys_call e S).2 i !! "" = None.
Proof.
  intros Hno i. destruct e as [k now [p|p|p|p out]].
  - rewrite sys_call_tryLock. simpl.
    destruct (decide (i = k)) as [->|]; [rewrite set_locks_eq|by rewrite set_locks_ne].
    destruct (tryLock_cases (procs k) now p (sys_locks S k) (sys_world S))
      as [[_ ->]|[(_ & _ & ->)|(Hc & _ & lg & ->)]]; simpl; [done|done|].
    destruct (can_acquire _ _ _ _ _); simpl; [|done].
    by rewrite lookup_insert_ne.
  - rewrite sys_call_unlock. simpl.
    destruct (decide (i = k)) as [->|]; [rewrite set_locks_eq|by rewrite set_locks_ne].
    pose proof (unlock_cases p (sys_locks S k) (sys_world S)) as Hu. simpl in Hu.
    destruct (sys_locks S k !! canonicalFilePath p);
      [case_bool_decide|]; rewrite Hu; simpl; try done.
    by rewrite lookup_delete_ne.
  - apply Hno.
  - rewrite sys_call_lockInfo. apply Hno.
Qed.

Lemma no_empty_key_run tr S :
  (∀ i, sys_locks S i !! "" = None) → ∀ i, sys_locks (sys_run tr S) i !! "" = None.
Proof.
  revert S. induction tr as [|e tr IH]; intros S Hno; [done|].
  rewrite sys_run_cons. by apply IH, no_empty_key_call.
Qed.

(** The three causes of a failed [tryLock]. *)
Lemma tryLock_invalid_path self now p t w :
  canonicalFilePath p = "" → tryLock self now p t w = (false, t, w).
Proof. intros Hc. unfold tryLock. by rewrite bool_decide_eq_true_2. Qed.

Lemma tryLock_live_holder self now p t w m info :
  canonicalFilePath p ≠ "" → t !! canonicalFilePath p = None →
  files w !! (canonicalFilePath p +:+ ".lock") = Some m → mf_info m = Some info →
  isProcessRunning (machineHostName self) (li_pid info) (li_appname info) = true →
  (tryLock self now p t w).1 = (false, t).
Proof.
  intros Hc Ht Hm Hi Hr.
  destruct (tryLock_cases self now p t w)
    as [[? _]|[(_ & Hin & _)|(_ & _ & lg & ->)]]; [done| |].
  - rewrite Ht in Hin. by destruct Hin.
  - unfold can_acquire, marker_is_stale. rewrite Hm, Hi, Hr. simpl.
    by rewrite andb_false_r.
Qed.

Lemma tryLock_io_failure self now p t w :
  canonicalFilePath p ≠ "" → t !! canonicalFilePath p = None →
  writable (canonicalFilePath p +:+ ".lock") = false →
  (tryLock self now p t w).1 = (false, t).
Proof.
  intros Hc Ht Hw.
  destruct (tryLock_cases self now p t w)
    as [[? _]|[(_ & Hin & _)|(_ & _ & lg & ->)]]; [done| |].
  - rewrite Ht in Hin. by destruct Hin.
  - unfold can_acquire. rewrite Hw.
    destruct (files w !! _); [by rewrite andb_false_r|done].
Qed.

(** ** The claims *)

(** C1. Mutual exclusion: once registry [i] got [true] from [tryLock p] and
    has not called [unlock] on that canonical path since, whatever else the
    registries did in between, [tryLock p] from another registry [j]
    returns [false].  Registries belong to running processes. *)
Theorem mutual_exclusion (Hrun : all_running) w0 pre mid i j now1 now2 p :
  i ≠ j →
  (sys_call (mkEvent i now1 (CallTryLock p)) (sys_run pre (sys_init w0))).1 = RetBool true →
  no_unlock_of i (canonicalFilePath p) mid = true →
  (sys_call (mkEvent j now2 (CallTryLock p))
     (sys_run mid (sys_call (mkEvent i now1 (CallTryLock p))
                     (sys_run pre (sys_init w0))).2)).1 = RetBool false.
Proof.
  intros Hij Hfirst Hmid.
  destruct (holds_after Hrun w0 pre mid i now1 p Hfirst Hmid) as (Hinv & Hc & Hin).
  set (S2 := sys_run mid _) in *.
  rewrite sys_call_tryLock. simpl. f_equal.
  destruct (tryLock_cases (procs j) now2 p (sys_locks S2 j) (sys_world S2))
    as [[_ ->]|[(_ & Hj & _)|(_ & _ & lg & ->)]]; [done| |].
  - destruct Hinv as [_ HB]. rewrite (HB i j _ Hij Hin) in Hj. by destruct Hj.
  - by rewrite (held_not_acquirable Hrun S2 i).
Qed.

(** C2. Idempotent re-entry: after [tryLock p] returned true in registry
    [i], and before [i] unlocks that canonical path, a second [tryLock p]
    returns true, changes neither the table nor the disk, the canonical key
    occurs once in the table, and the marker path occurs once on disk, with
    the triple of [i]. *)
Theorem tryLock_idempotent (Hrun : all_running) w0 pre mid i now1 now2 p :
  (sys_call (mkEvent i now1 (CallTryLock p)) (sys_run pre (sys_init w0))).1 = RetBool true →
  no_unlock_of i (canonicalFilePath p) mid = true →
  let c := canonicalFilePath p in
  let S2 := sys_run mid (sys_call (mkEvent i now1 (CallTryLock p))
                           (sys_run pre (sys_init w0))).2 in
  let second := sys_call (mkEvent i now2 (CallTryLock p)) S2 in
  second.1 = RetBool true
  ∧ sys_locks second.2 i = sys_locks S2 i
  ∧ sys_world second.2 = sys_world S2
  ∧ key_count c (sys_locks second.2 i) = 1%nat
  ∧ key_count (c +:+ ".lock") (files (sys_world second.2)) = 1%nat
  ∧ ∃ t, files (sys_world second.2) !! (c +:+ ".lock") = Some (marker_of (procs i) t).
Proof.
  intros Hfirst Hmid c S2 second.
  destruct (holds_after Hrun w0 pre mid i now1 p Hfirst Hmid) as (Hinv & Hc & Hin).
  fold S2 c in Hinv, Hin, Hc. subst second.
  rewrite sys_call_tryLock. simpl. rewrite set_locks_eq.
  destruct (tryLock_cases (procs i) now2 p (sys_locks S2 i) (sys_world S2))
    as [[? _]|[(_ & _ & ->)|(_ & Hnone & _)]]; [done| |].
  - simpl. destruct Hin as [l Hl]. repeat split; try done.
    + by apply (key_count_entry c _ l).
    + destruct Hinv as [HA _]. destruct (HA i c l Hl) as (_ & _ & _ & _ & t & Hm).
      by apply (key_count_entry _ _ _ Hm).
    + destruct Hinv as [HA _]. by destruct (HA i c l Hl) as (_ & _ & _ & _ & Hm).
  - fold c in Hnone. rewrite Hnone in Hin. by destruct Hin.
Qed.

(** C3. Clean release: once registry [i] holds [p], after its [unlock p]
    the query [isLocked p] answers false and the marker file of [p] is no
    longer on disk. *)
Theorem clean_release (Hrun : all_running) w0 pre mid i now1 now2 now3 p :
  (sys_call (mkEvent i now1 (CallTryLock p)) (sys_run pre (sys_init w0))).1 = RetBool true →
  no_unlock_of i (canonicalFilePath p) mid = true →
  let S2 := sys_run mid (sys_call (mkEvent i now1 (CallTryLock p))
                           (sys_run pre (sys_init w0))).2 in
  let S3 := (sys_call (mkEvent i now2 (CallUnlock p)) S2).2 in
  (sys_call (mkEvent i now3 (CallIsLocked p)) S3).1 = RetBool false
  ∧ files (sys_world S3) !! (canonicalFilePath p +:+ ".lock") = None.
Proof.
  intros Hfirst Hmid S2 S3.
  destruct (holds_after Hrun w0 pre mid i now1 p Hfirst Hmid) as (Hinv & Hc & Hin).
  fold S2 in Hinv, Hin. subst S3.
  destruct Hin as [l Hl]. destruct Hinv as [HA _].
  destruct (HA i _ l Hl) as (_ & Hf & Hlk & Hw & _).
  rewrite sys_call_unlock. simpl.
  rewrite (unlock_held p _ _ l) by done. simpl. split.
  - unfold sys_call, isLocked. simpl. rewrite set_locks_eq.
    by rewrite lookup_delete_eq.
  - apply lookup_delete_eq.
Qed.

(** C8. Round trip of the holder triple: while registry [i] holds [p],
    [lockInfo p] succeeds and writes into the out-parameters exactly the
    pid, hostname and application name of the process of [i], the triple the
    acquisition wrote into the marker. *)
Theorem lockInfo_round_trip (Hrun : all_running) w0 pre mid i now1 now2 p out :
  (sys_call (mkEvent i now1 (CallTryLock p)) (sys_run pre (sys_init w0))).1 = RetBool true →
  no_unlock_of i (canonicalFilePath p) mid = true →
  (sys_call (mkEvent i now2 (CallLockInfo p out))
     (sys_run mid (sys_call (mkEvent i now1 (CallTryLock p))
                     (sys_run pre (sys_init w0))).2)).1
  = RetInfo true (holder_of (procs i)).
Proof.
  intros Hfirst Hmid.
  destruct (holds_after Hrun w0 pre mid i now1 p Hfirst Hmid) as (Hinv & Hc & Hin).
  set (S2 := sys_run mid _) in *.
  destruct Hin as [l Hl]. destruct Hinv as [HA _].
  destruct (HA i _ l Hl) as (_ & _ & _ & _ & t & Hm).
  rewrite sys_call_lockInfo. simpl. rewrite lockInfo_cases.
  rewrite bool_decide_eq_false_2 by done. by rewrite Hm.
Qed.

(** C4. Stale recovery: when the marker of [p] on disk records the local
    host and a process that does not run, [tryLock p] returns true; it
    deletes the stale marker and writes one with the caller's own triple.
    The path resolves and the file system lets the marker be replaced. *)
Theorem stale_recovery (Hrun : all_running) w0 pre i now p m info :
  let c := canonicalFilePath p in
  let S := sys_run pre (sys_init w0) in
  c ≠ "" →
  files (sys_world S) !! (c +:+ ".lock") = Some m →
  mf_info m = Some info →
  li_hostname info = machineHostName (procs i) →
  isProcessRunning (machineHostName (procs i)) (li_pid info) (li_appname info) = false →
  writable (c +:+ ".lock") = true →
  let r := sys_call (mkEvent i now (CallTryLock p)) S in
  r.1 = RetBool true
  ∧ is_Some (sys_locks r.2 i !! c)
  ∧ files (sys_world r.2) = <[c +:+ ".lock" := marker_of (procs i) now]> (files (sys_world S))
  ∧ fslog (sys_world r.2) =
      (fslog (sys_world S) ++ [EvOpenExcl (c +:+ ".lock"); EvRead (c +:+ ".lock");
                               EvRemove (c +:+ ".lock"); EvOpenExcl (c +:+ ".lock")])%list.
Proof.
  intros c S Hc Hm Hi Hh Hdead Hw r. subst r.
  assert (Hinv : sys_inv S) by (apply sys_inv_run, sys_inv_init; done).
  assert (Hnone : sys_locks S i !! c = None).
  { apply eq_None_not_Some. intros [l Hl]. destruct Hinv as [HA _].
    destruct (HA i c l Hl) as (_ & _ & _ & _ & t & Hm').
    rewrite Hm in Hm'. injection Hm' as ->. simpl in Hi. injection Hi as <-.
    simpl in Hdead. by rewrite Hrun in Hdead. }
  rewrite sys_call_tryLock. simpl. rewrite set_locks_eq.
  unfold tryLock. fold c.
  rewrite bool_decide_eq_false_2 by done.
  rewrite bool_decide_eq_false_2 by (rewrite Hnone; by intros []).
  rewrite (QLockFile_tryLock_stale _ _ _ _ m); simpl; try done.
  - by rewrite lookup_insert_eq.
  - unfold marker_is_stale. rewrite Hi, Hdead.
    by rewrite bool_decide_eq_true_2.
Qed.


(** C6. A [tryLock] that returns false, for whichever reason, leaves the
    table exactly as it was, and the files on disk too.  It fails only when
    the path does not resolve, or when the path is not in the table and the
    marker cannot be acquired (a holder that is not stale, or a refused
    write).  [tryLock] is a total function to a boolean: it propagates no
    error. *)
Theorem tryLock_failure_no_change self now p t w :
  (tryLock self now p t w).1.1 = false →
  (tryLock self now p t w).1.2 = t
  ∧ files (tryLock self now p t w).2 = files w
  ∧ (canonicalFilePath p = ""
     ∨ (t !! canonicalFilePath p = None
        ∧ can_acquire self now 0 (canonicalFilePath p +:+ ".lock") w = false)).
Proof.
  destruct (tryLock_cases self now p t w)
    as [[Hc ->]|[(_ & _ & ->)|(_ & Hnone & lg & ->)]]; simpl; [by auto|done|].
  destruct (can_acquire _ _ _ _ _); simpl; [done|]. by auto.
Qed.

(** C7. [lockInfo] is a pure read: it leaves the files on disk and every
    table as they were, its only access to the disk is one read of the
    marker, and a following [tryLock] by any registry returns the same
    result and leaves the same files and tables as it would have without
    the query. *)
Theorem lockInfo_pure_read S i now p out :
  let S' := (sys_call (mkEvent i now (CallLockInfo p out)) S).2 in
  files (sys_world S') = files (sys_world S)
  ∧ sys_locks S' = sys_locks S
  ∧ fslog (sys_world S') =
      (fslog (sys_world S) ++
         (if bool_decide (canonicalFilePath p = "") then []
          else [EvRead (canonicalFilePath p +:+ ".lock")]))%list
  ∧ ∀ j now' p',
      (sys_call (mkEvent j now' (CallTryLock p')) S').1
        = (sys_call (mkEvent j now' (CallTryLock p')) S).1
      ∧ files (sys_world (sys_call (mkEvent j now' (CallTryLock p')) S').2)
        = files (sys_world (sys_call (mkEvent j now' (CallTryLock p')) S).2)
      ∧ sys_locks (sys_call (mkEvent j now' (CallTryLock p')) S').2
        = sys_locks (sys_call (mkEvent j now' (CallTryLock p')) S).2.
Proof.
  intros S'. subst S'. rewrite sys_call_lockInfo. simpl.
  pose proof (lockInfo_files p out (sys_world S)) as Hf.
  split; [done|]. split; [done|]. split.
  - rewrite lockInfo_cases. case_bool_decide; [by rewrite app_nil_r|].
    by destruct (files (sys_world S) !! _ ≫= mf_info).
  - intros j now' p'. rewrite !sys_call_tryLock. simpl.
    destruct (tryLock_files_only (procs j) now' p' (sys_locks S j)
                (lockInfo p out (sys_world S)).2 (sys_world S) Hf) as [H1 H2].
    by rewrite H1, H2.
Qed.

(** C9. The empty string is never a key of [s_locks]: [tryLock] inserts
    only a canonical path it found non-empty and nothing else inserts.
    Hence [isLocked] answers false for every path that does not resolve,
    though it does not test for emptiness itself. *)
Theorem empty_key_never_registered w0 tr i now :
  let S := sys_run tr (sys_init w0) in
  sys_locks S i !! "" = None
  ∧ ∀ p, canonicalFilePath p = "" →
         (sys_call (mkEvent i now (CallIsLocked p)) S).1 = RetBool false.
Proof.
  intros S.
  assert (Hno : sys_locks S i !! "" = None) by (by apply no_empty_key_run).
  split; [done|]. intros p Hp.
  unfold sys_call, isLocked. simpl. by rewrite Hp, Hno.
Qed.

(** C10. For a path that does not resolve, [lockInfo] returns false, leaves
    the three out-parameters as they were, and leaves the disk untouched,
    its access log included: no file is opened, read or created. *)
Theorem lockInfo_invalid_path p out w :
  canonicalFilePath p = "" → lockInfo p out w = (false, out, w).
Proof. intros Hc. unfold lockInfo. by rewrite bool_decide_eq_true_2. Qed.

(** ** Further properties of the registry *)

Lemma isLocked_true p t : isLocked p t = true ↔ is_Some (t !! canonicalFilePath p).
Proof. unfold isLocked. apply bool_decide_eq_true. Qed.

Lemma isLocked_false p t : isLocked p t = false ↔ t !! canonicalFilePath p = None.
Proof.
  unfold isLocked. rewrite bool_decide_eq_false. split.
  - apply eq_None_not_Some.
  - intros ->. by intros [].
Qed.

Lemma locks_shape_tryLock self now p t w :
  locks_shape t → locks_shape (tryLock self now p t w).1.2.
Proof.
  intros Hs.
  destruct (tryLock_cases self now p t w)
    as [[_ ->]|[(_ & _ & ->)|(Hc & _ & lg & ->)]]; simpl; [done|done|].
  destruct (can_acquire _ _ _ _ _); simpl; [|done].
  intros c l. rewrite lookup_insert. case_decide as Hcc.
  - subst c. by intros [= <-].
  - apply Hs.
Qed.

Lemma locks_shape_unlock p t w : locks_shape t → locks_shape (unlock p t w).1.
Proof.
  intros Hs. pose proof (unlock_cases p t w) as Hu. simpl in Hu.
  destruct (t !! canonicalFilePath p); [case_bool_decide|]; rewrite Hu; simpl; try done.
  intros c l. rewrite lookup_delete. case_decide; [done|]. apply Hs.
Qed.

Lemma locks_shape_call e S :
  (∀ i, locks_shape (sys_locks S i)) → ∀ i, locks_shape (sys_locks (sys_call e S).2 i).
Proof.
  intros Hs i. destruct e as [k now [p|p|p|p out]].
  - rewrite sys_call_tryLock. simpl.
    destruct (decide (i = k)) as [->|]; [rewrite set_locks_eq|by rewrite set_locks_ne].
    by apply locks_shape_tryLock.
  - rewrite sys_call_unlock. simpl.
    destruct (decide (i = k)) as [->|]; [rewrite set_locks_eq|by rewrite set_locks_ne].
    by apply locks_shape_unlock.
  - apply Hs.
  - rewrite sys_call_lockInfo. apply Hs.
Qed.

Lemma locks_shape_run tr w0 i : locks_shape (sys_locks (sys_run tr (sys_init w0)) i).
Proof.
  assert (H : ∀ S, (∀ i, locks_shape (sys_locks S i)) →
                   ∀ i, locks_shape (sys_locks (sys_run tr S) i)).
  { induction tr as [|e tr IH]; intros S Hs; [done|].
    rewrite sys_run_cons. by apply IH, locks_shape_call. }
  apply H. intros k c l. simpl. by rewrite lookup_empty.
Qed.

(** [unlock] on a table of well-shaped lock objects. *)
Lemma unlock_shaped p t w :
  let c := canonicalFilePath p in
  locks_shape t → is_Some (t !! c) →
  unlock p t w =
    (delete c t,
     if writable (c +:+ ".lock")
     then mkWorld (delete (c +:+ ".lock") (files w))
                  (fslog w ++ [EvRemove (c +:+ ".lock")])
     else log_event (EvRemove (c +:+ ".lock")) w).
Proof.
  intros c Hs [l Hl]. destruct (Hs c l Hl) as [Hc ->].
  pose proof (unlock_cases p t w) as Hu. simpl in Hu. fold c in Hu.
  rewrite Hl, bool_decide_eq_false_2 in Hu by done. rewrite Hu.
  unfold QLockFile_unlock. simpl.
  rewrite QLockFile_delete_idle by done.
  by destruct (writable (c +:+ ".lock")).
Qed.

(** What a reachable system knows of a held path. *)
Lemma held_facts (Hrun : all_running) w0 tr i p :
  let S := sys_run tr (sys_init w0) in
  let c := canonicalFilePath p in
  isLocked p (sys_locks S i) = true →
  sys_inv S ∧ c ≠ "" ∧ writable (c +:+ ".lock") = true
  ∧ (∃ l, sys_locks S i !! c = Some l ∧ fileName l = c +:+ ".lock" ∧ lf_isLocked l = true)
  ∧ (∃ t, files (sys_world S) !! (c +:+ ".lock") = Some (marker_of (procs i) t))
  ∧ (∀ j, j ≠ i → sys_locks S j !! c = None).
Proof.
  intros S c Hheld. apply isLocked_true in Hheld as [l Hl]. fold c in Hl.
  assert (Hinv : sys_inv S) by (apply sys_inv_run, sys_inv_init; done).
  split; [done|]. destruct Hinv as [HA HB].
  destruct (HA i c l Hl) as (Hc & Hf & Hlk & Hw & Hm).
  repeat split; try done.
  - by exists l.
  - intros j Hji. apply (HB i j); [done|by eexists].
Qed.

(** The system after the holder's [unlock]. *)
Lemma release_facts (Hrun : all_running) w0 tr i p q now :
  let S := sys_run tr (sys_init w0) in
  let c := canonicalFilePath p in
  isLocked p (sys_locks S i) = true →
  canonicalFilePath q = c →
  let S1 := (sys_call (mkEvent i now (CallUnlock q)) S).2 in
  files (sys_world S1) = delete (c +:+ ".lock") (files (sys_world S))
  ∧ sys_locks S1 i = delete c (sys_locks S i)
  ∧ (∀ j, j ≠ i → sys_locks S1 j = sys_locks S j).
Proof.
  intros S c Hheld Hq S1. subst S1.
  destruct (held_facts Hrun w0 tr i p Hheld) as (_ & Hc & Hw & (l & Hl & Hf & Hlk) & _ & _).
  fold S c in Hc, Hw, Hl, Hf. rewrite sys_call_unlock. simpl.
  rewrite (unlock_held q _ _ l); rewrite ?Hq; try done. simpl.
  rewrite set_locks_eq. repeat split; try done.
  intros j Hji. by rewrite set_locks_ne.
Qed.

(** X1. Every lock object a registry stores, after any history, is the one
    [tryLock] built for its key: the key is a non-empty canonical path, the
    object is for the marker path key + ".lock", its stale time is 0 and it
    holds the lock. *)
Theorem lock_objects_shape w0 tr i c l :
  sys_locks (sys_run tr (sys_init w0)) i !! c = Some l →
  c ≠ "" ∧ fileName l = c +:+ ".lock" ∧ staleLockTime l = 0 ∧ lf_isLocked l = true.
Proof.
  intros Hl. destruct (locks_shape_run tr w0 i c l Hl) as [Hc ->]. done.
Qed.

(** X2. While [isLocked p] answers true in a registry, the marker file of [p]
    is on disk and records the triple of that registry's process. *)
Theorem held_marker_on_disk (Hrun : all_running) w0 tr i p :
  let S := sys_run tr (sys_init w0) in
  isLocked p (sys_locks S i) = true →
  ∃ t, files (sys_world S) !! (canonicalFilePath p +:+ ".lock")
       = Some (marker_of (procs i) t).
Proof.
  intros S Hheld.
  by destruct (held_facts Hrun w0 tr i p Hheld) as (_ & _ & _ & _ & Hm & _).
Qed.

(** X3. [isLocked] speaks for the own process only and at most one registry
    answers true: while it is true in registry [i] for [p], it is false in
    every other registry, for [p] and for every path with the same canonical
    form. *)
Theorem isLocked_exclusive (Hrun : all_running) w0 tr i j p q :
  let S := sys_run tr (sys_init w0) in
  i ≠ j →
  isLocked p (sys_locks S i) = true →
  canonicalFilePath q = canonicalFilePath p →
  isLocked q (sys_locks S j) = false.
Proof.
  intros S Hij Hheld Hq.
  destruct (held_facts Hrun w0 tr i p Hheld) as (_ & _ & _ & _ & _ & Hothers).
  apply isLocked_false. rewrite Hq. by apply Hothers.
Qed.

(** X4. [unlock] by a registry that does not hold the path releases nothing:
    while registry [i] holds [p], an [unlock] of [p] (or of an alias) by
    another registry leaves the disk, its log included, and every table as
    they were. *)
Theorem foreign_unlock_no_effect (Hrun : all_running) w0 tr i j p q now :
  let S := sys_run tr (sys_init w0) in
  i ≠ j →
  isLocked p (sys_locks S i) = true →
  canonicalFilePath q = canonicalFilePath p →
  let S1 := (sys_call (mkEvent j now (CallUnlock q)) S).2 in
  sys_world S1 = sys_world S ∧ ∀ k, sys_locks S1 k = sys_locks S k.
Proof.
  intros S Hij Hheld Hq S1. subst S1.
  destruct (held_facts Hrun w0 tr i p Hheld) as (_ & _ & _ & _ & _ & Hothers).
  fold S in Hothers. rewrite sys_call_unlock. simpl.
  pose proof (unlock_cases q (sys_locks S j) (sys_world S)) as Hu. simpl in Hu.
  rewrite Hq, (Hothers j) in Hu by done. rewrite Hu. simpl.
  split; [done|]. intros k. apply set_locks_same.
Qed.

(** X5. The lock is on the document, not on the path string: while registry
    [i] holds [p], [tryLock] by another registry on any path with the same
    canonical form returns false and leaves files and tables as they were. *)
Theorem alias_excluded (Hrun : all_running) w0 tr i j p q now :
  let S := sys_run tr (sys_init w0) in
  i ≠ j →
  isLocked p (sys_locks S i) = true →
  canonicalFilePath q = canonicalFilePath p →
  let r := sys_call (mkEvent j now (CallTryLock q)) S in
  r.1 = RetBool false
  ∧ files (sys_world r.2) = files (sys_world S)
  ∧ ∀ k, sys_locks r.2 k = sys_locks S k.
Proof.
  intros S Hij Hheld Hq r. subst r.
  destruct (held_facts Hrun w0 tr i p Hheld) as (Hinv & _ & _ & (l & Hl & _) & _ & Hothers).
  fold S in Hinv, Hl, Hothers. rewrite sys_call_tryLock. simpl.
  destruct (tryLock_cases (procs j) now q (sys_locks S j) (sys_world S))
    as [[_ ->]|[(_ & Hj & _)|(_ & _ & lg & ->)]].
  - simpl. repeat split; try done. intros k. apply set_locks_same.
  - rewrite Hq, (Hothers j) in Hj by done. by destruct Hj.
  - rewrite Hq. rewrite (held_not_acquirable Hrun S i); [|done|by eexists]. simpl.
    repeat split; try done. intros k. apply set_locks_same.
Qed.

(** X6. A lock taken through one path is released through any alias: while
    registry [i] holds [p], its [unlock] of a path with the same canonical
    form makes [isLocked p] false, removes the marker of [p] from disk and
    leaves the other registries' tables alone. *)
Theorem release_via_alias (Hrun : all_running) w0 tr i p q now :
  let S := sys_run tr (sys_init w0) in
  isLocked p (sys_locks S i) = true →
  canonicalFilePath q = canonicalFilePath p →
  let S1 := (sys_call (mkEvent i now (CallUnlock q)) S).2 in
  isLocked p (sys_locks S1 i) = false
  ∧ files (sys_world S1) !! (canonicalFilePath p +:+ ".lock") = None
  ∧ ∀ j, j ≠ i → sys_locks S1 j = sys_locks S j.
Proof.
  intros S Hheld Hq S1.
  destruct (release_facts Hrun w0 tr i p q now Hheld Hq) as (Hf & Ht & Ho).
  fold S S1 in Hf, Ht, Ho. repeat split; [| |done].
  - apply isLocked_false. rewrite Ht. apply lookup_delete_eq.
  - rewrite Hf. apply lookup_delete_eq.
Qed.

(** X7. Anyone can ask who holds a document: while registry [i] holds [p],
    [lockInfo] called from any registry, on [p] or an alias, returns true and
    the pid, hostname and application name of the process of [i]. *)
Theorem foreign_lockInfo_reads_holder (Hrun : all_running) w0 tr i j p q now out :
  let S := sys_run tr (sys_init w0) in
  isLocked p (sys_locks S i) = true →
  canonicalFilePath q = canonicalFilePath p →
  (sys_call (mkEvent j now (CallLockInfo q out)) S).1
  = RetInfo true (holder_of (procs i)).
Proof.
  intros S Hheld Hq.
  destruct (held_facts Hrun w0 tr i p Hheld) as (_ & Hc & _ & _ & (t & Hm) & _).
  fold S in Hm. rewrite sys_call_lockInfo. simpl. rewrite lockInfo_cases, Hq.
  rewrite bool_decide_eq_false_2 by done. by rewrite Hm.
Qed.

(** X8. Handover: right after the holder's [unlock], [tryLock] of the same
    document by any registry returns true, that registry then holds it, and
    the marker on disk records the new holder and the time of the call. *)
Theorem handover (Hrun : all_running) w0 tr i j p now1 now2 :
  let S := sys_run tr (sys_init w0) in
  isLocked p (sys_locks S i) = true →
  let S1 := (sys_call (mkEvent i now1 (CallUnlock p)) S).2 in
  let r := sys_call (mkEvent j now2 (CallTryLock p)) S1 in
  r.1 = RetBool true
  ∧ isLocked p (sys_locks r.2 j) = true
  ∧ files (sys_world r.2) !! (canonicalFilePath p +:+ ".lock")
    = Some (marker_of (procs j) now2).
Proof.
  intros S Hheld S1 r. subst r.
  destruct (held_facts Hrun w0 tr i p Hheld) as (_ & Hc & Hw & _ & _ & Hothers).
  destruct (release_facts Hrun w0 tr i p p now1 Hheld eq_refl) as (Hf & Ht & Ho).
  fold S S1 in Hf, Ht, Ho, Hothers.
  assert (Hj : sys_locks S1 j !! canonicalFilePath p = None).
  { destruct (decide (j = i)) as [->|Hji].
    - rewrite Ht. apply lookup_delete_eq.
    - rewrite Ho by done. by apply Hothers. }
  rewrite sys_call_tryLock. simpl. rewrite set_locks_eq.
  destruct (tryLock_cases (procs j) now2 p (sys_locks S1 j) (sys_world S1))
    as [[? _]|[(_ & Hin & _)|(_ & _ & lg & ->)]]; [done| |].
  - rewrite Hj in Hin. by destruct Hin.
  - unfold can_acquire. rewrite Hf, lookup_delete_eq, Hw. simpl.
    repeat split.
    + apply isLocked_true. by rewrite lookup_insert_eq.
    + by rewrite lookup_insert_eq.
Qed.

(** X9. After the holder's [unlock] nobody is reported as holder: [lockInfo]
    on the document, from any registry, returns false and leaves the
    out-parameters as they were. *)
Theorem lockInfo_after_release (Hrun : all_running) w0 tr i j p now1 now2 out :
  let S := sys_run tr (sys_init w0) in
  isLocked p (sys_locks S i) = true →
  let S1 := (sys_call (mkEvent i now1 (CallUnlock p)) S).2 in
  (sys_call (mkEvent j now2 (CallLockInfo p out)) S1).1 = RetInfo false out.
Proof.
  intros S Hheld S1.
  destruct (release_facts Hrun w0 tr i p p now1 Hheld eq_refl) as (Hf & _ & _).
  fold S S1 in Hf.
  rewrite sys_call_lockInfo. simpl. rewrite lockInfo_cases.
  case_bool_decide; [done|]. by rewrite Hf, lookup_delete_eq.
Qed.

(** What a call leaves of the disk, path by path. *)
Lemma call_files_other_path w0 tr e path :
  let S := sys_run tr (sys_init w0) in
  path ≠ canonicalFilePath (call_path (ev_call e)) +:+ ".lock" →
  files (sys_world (sys_call e S).2) !! path = files (sys_world S) !! path.
Proof.
  intros S Hp. destruct e as [k now [p|p|p|p out]]; simpl in Hp.
  - rewrite sys_call_tryLock. simpl.
    destruct (tryLock_cases (procs k) now p (sys_locks S k) (sys_world S))
      as [[_ ->]|[(_ & _ & ->)|(_ & _ & lg & ->)]]; [done|done|].
    destruct (can_acquire _ _ _ _ _); simpl; [|done].
    by rewrite lookup_insert_ne.
  - rewrite sys_call_unlock. simpl.
    destruct (sys_locks S k !! canonicalFilePath p) as [l|] eqn:Hl.
    + rewrite unlock_shaped; [| apply locks_shape_run | by eexists]. simpl.
      destruct (writable _); simpl; [|done]. by rewrite lookup_delete_ne.
    + pose proof (unlock_cases p (sys_locks S k) (sys_world S)) as Hu. simpl in Hu.
      rewrite Hl in Hu. by rewrite Hu.
  - done.
  - rewrite sys_call_lockInfo. simpl. by rewrite lockInfo_files.
Qed.

(** X10. A call on one document never disturbs the marker of another:
    whatever call any registry makes after any history, the marker file of
    every other canonical path is on disk, or absent, exactly as before. *)
Theorem call_disk_frame w0 tr e c' :
  let S := sys_run tr (sys_init w0) in
  c' ≠ canonicalFilePath (call_path (ev_call e)) →
  files (sys_world (sys_call e S).2) !! (c' +:+ ".lock")
  = files (sys_world S) !! (c' +:+ ".lock").
Proof.
  intros S Hc. apply call_files_other_path. by apply lock_path_ne.
Qed.

(** X11. A call touches no table entry but its own: in any system, a call
    leaves every other registry's table, and every other key of the caller's
    table, as it was. *)
Theorem call_table_frame e S k c :
  k ≠ ev_who e ∨ c ≠ canonicalFilePath (call_path (ev_call e)) →
  sys_locks (sys_call e S).2 k !! c = sys_locks S k !! c.
Proof.
  intros Hkc. destruct e as [i now [p|p|p|p out]]; simpl in Hkc.
  - rewrite sys_call_tryLock. simpl.
    destruct (decide (k = i)) as [->|]; [rewrite set_locks_eq|by rewrite set_locks_ne].
    destruct Hkc as [?|Hc]; [done|].
    destruct (tryLock_cases (procs i) now p (sys_locks S i) (sys_world S))
      as [[_ ->]|[(_ & _ & ->)|(_ & _ & lg & ->)]]; [done|done|].
    destruct (can_acquire _ _ _ _ _); simpl; [|done].
    by rewrite lookup_insert_ne.
  - rewrite sys_call_unlock. simpl.
    destruct (decide (k = i)) as [->|]; [rewrite set_locks_eq|by rewrite set_locks_ne].
    destruct Hkc as [?|Hc]; [done|].
    pose proof (unlock_cases p (sys_locks S i) (sys_world S)) as Hu. simpl in Hu.
    destruct (sys_locks S i !! canonicalFilePath p);
      [case_bool_decide|]; rewrite Hu; simpl; try done.
    by rewrite lookup_delete_ne.
  - done.
  - by rewrite sys_call_lockInfo.
Qed.

(** X12. What [tryLock] returns is what [isLocked] answers afterwards: after
    any history, [tryLock p] returns true exactly when the caller's table
    then has the canonical path of [p]. *)
Theorem tryLock_result_is_isLocked w0 tr i now p :
  let S := sys_run tr (sys_init w0) in
  let r := sys_call (mkEvent i now (CallTryLock p)) S in
  r.1 = RetBool (isLocked p (sys_locks r.2 i)).
Proof.
  intros S r. subst r. rewrite sys_call_tryLock. simpl. rewrite set_locks_eq. f_equal.
  destruct (tryLock_cases (procs i) now p (sys_locks S i) (sys_world S))
    as [[Hc ->]|[(_ & Hin & ->)|(_ & Hnone & lg & ->)]]; simpl.
  - symmetry. apply isLocked_false. rewrite Hc. by apply no_empty_key_run.
  - symmetry. by apply isLocked_true.
  - destruct (can_acquire _ _ _ _ _); simpl; symmetry.
    + apply isLocked_true. by rewrite lookup_insert_eq.
    + by apply isLocked_false.
Qed.

(** The table and the files after [tryLock] acquired and [unlock] released. *)
Lemma lock_unlock_state self now p t w :
  let c := canonicalFilePath p in
  let r := tryLock self now p t w in
  t !! c = None →
  r.1.1 = true →
  (unlock p r.1.2 r.2).1 = t
  ∧ files (unlock p r.1.2 r.2).2 = delete (c +:+ ".lock") (files w).
Proof.
  intros c r Hnone Htrue. subst r.
  destruct (tryLock_cases self now p t w)
    as [[_ Heq]|[(_ & Hin & _)|(Hc & _ & lg & Heq)]].
  - rewrite Heq in Htrue. done.
  - fold c in Hin. rewrite Hnone in Hin. by destruct Hin.
  - fold c in Heq, Hc. rewrite Heq in Htrue |- *.
    destruct (can_acquire self now 0 (c +:+ ".lock") w) eqn:Hacq; [|done]. simpl.
    rewrite (unlock_held p _ _ (mkQLockFile (c +:+ ".lock") 0 true)); fold c; try done.
    + simpl. split; [by rewrite delete_insert_id|]. by rewrite delete_insert_eq.
    + by rewrite lookup_insert_eq.
    + by apply can_acquire_writable in Hacq.
Qed.

(** X13. Lock then unlock is a round trip: when [tryLock p] acquires a path
    that was not in the table, the following [unlock p] gives back the table
    as it was, leaves the marker path of [p] free (a stale marker that was
    there is gone) and the markers of all other documents as they were. *)
Theorem lock_unlock_round_trip self now p t w :
  let c := canonicalFilePath p in
  let r := tryLock self now p t w in
  t !! c = None →
  r.1.1 = true →
  (unlock p r.1.2 r.2).1 = t
  ∧ files (unlock p r.1.2 r.2).2 !! (c +:+ ".lock") = None
  ∧ ∀ c', c' ≠ c →
      files (unlock p r.1.2 r.2).2 !! (c' +:+ ".lock") = files w !! (c' +:+ ".lock").
Proof.
  intros c r Hnone Htrue.
  destruct (lock_unlock_state self now p t w Hnone Htrue) as [Ht Hf].
  fold c r in Ht, Hf. split; [done|]. rewrite Hf. split.
  - apply lookup_delete_eq.
  - intros c' Hc'. rewrite lookup_delete_ne; [done|]. apply lock_path_ne. congruence.
Qed.

(** X14. A second [unlock] does nothing: for any table and disk, [unlock p]
    right after [unlock p] leaves the table and the disk, its log included,
    as the first left them. *)
Theorem unlock_idempotent p t w :
  unlock p (unlock p t w).1 (unlock p t w).2 = unlock p t w.
Proof.
  pose proof (unlock_cases p t w) as Hu. simpl in Hu.
  destruct (t !! canonicalFilePath p) as [l|] eqn:Hl.
  - case_bool_decide as Hc.
    + rewrite Hu. simpl. by rewrite Hu.
    + rewrite Hu. simpl.
      pose proof (unlock_cases p (delete (canonicalFilePath p) t)
                    (QLockFile_delete (QLockFile_unlock l w).1 (QLockFile_unlock l w).2))
        as Hu2.
      simpl in Hu2. by rewrite lookup_delete_eq in Hu2.
  - rewrite Hu. simpl. pose proof (unlock_cases p t w) as Hu2. simpl in Hu2.
    by rewrite Hl in Hu2.
Qed.


(** X16. Nothing but the holder's own [unlock] ends a hold: while registry
    [i] holds [p], after any single call that is not an [unlock] by [i] of
    that canonical path, whoever makes it, [isLocked p] is still true in [i]
    and the marker on disk still records the process of [i]. *)
Theorem hold_persists (Hrun : all_running) w0 tr i p e :
  let S := sys_run tr (sys_init w0) in
  isLocked p (sys_locks S i) = true →
  is_unlock_of i (canonicalFilePath p) e = false →
  isLocked p (sys_locks (sys_call e S).2 i) = true
  ∧ ∃ t, files (sys_world (sys_call e S).2) !! (canonicalFilePath p +:+ ".lock")
         = Some (marker_of (procs i) t).
Proof.
  intros S Hheld He.
  assert (Hin : is_Some (sys_locks (sys_call e S).2 i !! canonicalFilePath p)).
  { apply sys_call_keeps_entry; [by apply isLocked_true|done]. }
  split; [by apply isLocked_true|].
  assert (Hinv : sys_inv (sys_call e S).2).
  { apply sys_inv_call, sys_inv_run, sys_inv_init; done. }
  destruct Hin as [l Hl]. destruct Hinv as [HA _].
  by destruct (HA i _ l Hl) as (_ & _ & _ & _ & Hm).
Qed.

End Registry.

(** ** The claims on the scenarios *)

Lemma all_running_scn : all_running running_scn procs_scn.
Proof. intros [|[|n]]; reflexivity. Qed.

(** The first scenario of section 8: A locks the document, B is refused and
    reads A's triple, A unlocks, B locks. *)
Example scenario_two_processes :
  let call := sys_call canonical_scn running_scn writable_scn procs_scn in
  let a_locks := call (mkEvent 0 10 (CallTryLock "/docs/a.qet")) (sys_init empty_disk) in
  let b_tries := call (mkEvent 1 11 (CallTryLock "/docs/a.qet")) a_locks.2 in
  let b_asks := call (mkEvent 1 12 (CallLockInfo "/docs/a.qet" (mkLockInfo 0 "" ""))) b_tries.2 in
  let a_unlocks := call (mkEvent 0 13 (CallUnlock "/docs/a.qet")) b_asks.2 in
  let b_locks := call (mkEvent 1 14 (CallTryLock "/docs/a.qet")) a_unlocks.2 in
  a_locks.1 = RetBool true
  ∧ b_tries.1 = RetBool false
  ∧ b_asks.1 = RetInfo true (mkLockInfo 100 "hostA" "qelectrotech")
  ∧ b_locks.1 = RetBool true
  ∧ files (sys_world b_locks.2) !! "/docs/a.qet.lock"
    = Some (mkMarkerFile (Some (mkLockInfo 200 "hostA" "qelectrotech")) 14).
Proof. vm_compute. repeat split; reflexivity. Qed.

Lemma mutual_exclusion_witness :
  (sys_call canonical_scn running_scn writable_scn procs_scn
     (mkEvent 0 10 (CallTryLock "/docs/a.qet")) (sys_init empty_disk)).1 = RetBool true
  ∧ (sys_call canonical_scn running_scn writable_scn procs_scn
       (mkEvent 1 30 (CallTryLock "/docs/a.qet"))
       (sys_run canonical_scn running_scn writable_scn procs_scn busy_trace
          (sys_call canonical_scn running_scn writable_scn procs_scn
             (mkEvent 0 10 (CallTryLock "/docs/a.qet"))
             (sys_run canonical_scn running_scn writable_scn procs_scn []
                (sys_init empty_disk))).2)).1 = RetBool false.
Proof.
  split; [vm_compute; reflexivity|].
  apply (mutual_exclusion canonical_scn running_scn writable_scn procs_scn
           all_running_scn empty_disk [] busy_trace 0%nat 1%nat 10 30 "/docs/a.qet").
  - lia.
  - vm_compute; reflexivity.
  - vm_compute; reflexivity.
Defined.

Lemma tryLock_idempotent_witness :
  (sys_call canonical_scn running_scn writable_scn procs_scn
     (mkEvent 0 10 (CallTryLock "/docs/a.qet")) (sys_init empty_disk)).1 = RetBool true
  ∧ (sys_call canonical_scn running_scn writable_scn procs_scn
       (mkEvent 0 30 (CallTryLock "/docs/a.qet"))
       (sys_run canonical_scn running_scn writable_scn procs_scn busy_trace
          (sys_call canonical_scn running_scn writable_scn procs_scn
             (mkEvent 0 10 (CallTryLock "/docs/a.qet"))
             (sys_run canonical_scn running_scn writable_scn procs_scn []
                (sys_init empty_disk))).2)).1 = RetBool true.
Proof.
  split; [vm_compute; reflexivity|].
  apply (tryLock_idempotent canonical_scn running_scn writable_scn procs_scn
           all_running_scn empty_disk [] busy_trace 0%nat 10 30 "/docs/a.qet").
  - vm_compute; reflexivity.
  - vm_compute; reflexivity.
Defined.

Lemma clean_release_witness :
  (sys_call canonical_scn running_scn writable_scn procs_scn
     (mkEvent 0 10 (CallTryLock "/docs/a.qet")) (sys_init empty_disk)).1 = RetBool true
  ∧ files (sys_world
       (sys_call canonical_scn running_scn writable_scn procs_scn
          (mkEvent 0 30 (CallUnlock "/docs/a.qet"))
          (sys_run canonical_scn running_scn writable_scn procs_scn busy_trace
             (sys_call canonical_scn running_scn writable_scn procs_scn
                (mkEvent 0 10 (CallTryLock "/docs/a.qet"))
                (sys_run canonical_scn running_scn writable_scn procs_scn []
                   (sys_init empty_disk))).2)).2)
     !! (canonical_scn "/docs/a.qet" +:+ ".lock") = None.
Proof.
  split; [vm_compute; reflexivity|].
  apply (clean_release canonical_scn running_scn writable_scn procs_scn
           all_running_scn empty_disk [] busy_trace 0%nat 10 30 31 "/docs/a.qet").
  - vm_compute; reflexivity.
  - vm_compute; reflexivity.
Defined.

Lemma lockInfo_round_trip_witness :
  (sys_call canonical_scn running_scn writable_scn procs_scn
     (mkEvent 0 10 (CallTryLock "/link/a.qet")) (sys_init empty_disk)).1 = RetBool true
  ∧ (sys_call canonical_scn running_scn writable_scn procs_scn
       (mkEvent 0 30 (CallLockInfo "/link/a.qet" (mkLockInfo 0 "" "")))
       (sys_run canonical_scn running_scn writable_scn procs_scn busy_trace
          (sys_call canonical_scn running_scn writable_scn procs_scn
             (mkEvent 0 10 (CallTryLock "/link/a.qet"))
             (sys_run canonical_scn running_scn writable_scn procs_scn []
                (sys_init empty_disk))).2)).1
    = RetInfo true (mkLockInfo 100 "hostA" "qelectrotech").
Proof.
  split; [vm_compute; reflexivity|].
  apply (lockInfo_round_trip canonical_scn running_scn writable_scn procs_scn
           all_running_scn empty_disk [] busy_trace 0%nat 10 30 "/link/a.qet").
  - vm_compute; reflexivity.
  - vm_compute; reflexivity.
Defined.

Lemma stale_recovery_witness :
  files stale_disk !! "/docs/a.qet.lock"
    = Some (mkMarkerFile (Some (mkLockInfo 999999 "hostA" "qelectrotech")) 0)
  ∧ running_scn "hostA" 999999 "qelectrotech" = false
  ∧ (sys_call canonical_scn running_scn writable_scn procs_scn
       (mkEvent 0 10 (CallTryLock "/docs/a.qet")) (sys_init stale_disk)).1 = RetBool true.
Proof.
  split; [vm_compute; reflexivity|]. split; [reflexivity|].
  apply (stale_recovery canonical_scn running_scn writable_scn procs_scn
           all_running_scn stale_disk [] 0%nat 10 "/docs/a.qet"
           (mkMarkerFile (Some (mkLockInfo 999999 "hostA" "qelectrotech")) 0)
           (mkLockInfo 999999 "hostA" "qelectrotech")).
  - vm_compute. discriminate.
  - vm_compute; reflexivity.
  - reflexivity.
  - reflexivity.
  - reflexivity.
  - reflexivity.
Defined.


(** With the stale time a new QLockFile has, the age heuristic is on: the
    marker of hostC, 10^12 ms old, would be broken. *)
Example default_stale_time_breaks_old_marker :
  (QLockFile_tryLock running_scn writable_scn (procs_scn 0) 1000000000000
     (QLockFile_new "/docs/a.qet.lock") foreign_disk).1
  = (true, mkQLockFile "/docs/a.qet.lock" 30000 true).
Proof. vm_compute. reflexivity. Qed.


Lemma tryLock_failure_no_change_witness :
  (tryLock canonical_scn running_scn writable_scn (procs_scn 0) 10
     "/readonly/a.qet" ∅ empty_disk).1.1 = false
  ∧ (tryLock canonical_scn running_scn writable_scn (procs_scn 0) 10
       "/readonly/a.qet" ∅ empty_disk).1.2 = ∅.
Proof.
  split; [vm_compute; reflexivity|].
  apply (tryLock_failure_no_change canonical_scn running_scn writable_scn (procs_scn 0) 10
           "/readonly/a.qet" ∅ empty_disk).
  vm_compute; reflexivity.
Defined.

Lemma lockInfo_invalid_path_witness :
  canonical_scn "a.qet" = ""
  ∧ lockInfo canonical_scn writable_scn "a.qet" (mkLockInfo 7 "h" "app") stale_disk
    = (false, mkLockInfo 7 "h" "app", stale_disk).
Proof.
  split; [reflexivity|].
  apply (lockInfo_invalid_path canonical_scn writable_scn "a.qet"). reflexivity.
Defined.

(** ** The further properties on the scenarios *)

Lemma lock_objects_shape_witness :
  sys_locks (sys_run canonical_scn running_scn writable_scn procs_scn held_trace
               (sys_init empty_disk)) 0%nat !! "/docs/a.qet"
    = Some (mkQLockFile "/docs/a.qet.lock" 0 true)
  ∧ staleLockTime (mkQLockFile "/docs/a.qet.lock" 0 true) = 0.
Proof.
  split; [vm_compute; reflexivity|].
  apply (lock_objects_shape canonical_scn running_scn writable_scn procs_scn
           empty_disk held_trace 0%nat "/docs/a.qet").
  vm_compute; reflexivity.
Defined.

Lemma held_marker_on_disk_witness :
  isLocked canonical_scn "/link/a.qet"
    (sys_locks (sys_run canonical_scn running_scn writable_scn procs_scn held_trace
                  (sys_init empty_disk)) 0%nat) = true
  ∧ ∃ t, files (sys_world (sys_run canonical_scn running_scn writable_scn procs_scn
                             held_trace (sys_init empty_disk)))
           !! (canonical_scn "/link/a.qet" +:+ ".lock")
         = Some (marker_of (procs_scn 0) t).
Proof.
  split; [vm_compute; reflexivity|].
  apply (held_marker_on_disk canonical_scn running_scn writable_scn procs_scn
           all_running_scn empty_disk held_trace 0%nat "/link/a.qet").
  vm_compute; reflexivity.
Defined.

Lemma isLocked_exclusive_witness :
  isLocked canonical_scn "/docs/a.qet"
    (sys_locks (sys_run canonical_scn running_scn writable_scn procs_scn held_trace
                  (sys_init empty_disk)) 0%nat) = true
  ∧ isLocked canonical_scn "/link/a.qet"
      (sys_locks (sys_run canonical_scn running_scn writable_scn procs_scn held_trace
                    (sys_init empty_disk)) 1%nat) = false.
Proof.
  split; [vm_compute; reflexivity|].
  apply (isLocked_exclusive canonical_scn running_scn writable_scn procs_scn
           all_running_scn empty_disk held_trace 0%nat 1%nat "/docs/a.qet" "/link/a.qet").
  - lia.
  - vm_compute; reflexivity.
  - reflexivity.
Defined.

Lemma foreign_unlock_no_effect_witness :
  canonical_scn "/link/a.qet" = canonical_scn "/docs/a.qet"
  ∧ sys_world
      (sys_call canonical_scn running_scn writable_scn procs_scn
         (mkEvent 1 30 (CallUnlock "/link/a.qet"))
         (sys_run canonical_scn running_scn writable_scn procs_scn held_trace
            (sys_init empty_disk))).2
    = sys_world (sys_run canonical_scn running_scn writable_scn procs_scn held_trace
                   (sys_init empty_disk)).
Proof.
  split; [reflexivity|].
  apply (foreign_unlock_no_effect canonical_scn running_scn writable_scn procs_scn
           all_running_scn empty_disk held_trace 0%nat 1%nat "/docs/a.qet" "/link/a.qet" 30).
  - lia.
  - vm_compute; reflexivity.
  - reflexivity.
Defined.

Lemma alias_excluded_witness :
  canonical_scn "/link/a.qet" = canonical_scn "/docs/a.qet"
  ∧ (sys_call canonical_scn running_scn writable_scn procs_scn
       (mkEvent 2 30 (CallTryLock "/link/a.qet"))
       (sys_run canonical_scn running_scn writable_scn procs_scn held_trace
          (sys_init empty_disk))).1 = RetBool false.
Proof.
  split; [reflexivity|].
  apply (alias_excluded canonical_scn running_scn writable_scn procs_scn
           all_running_scn empty_disk held_trace 0%nat 2%nat "/docs/a.qet" "/link/a.qet" 30).
  - lia.
  - vm_compute; reflexivity.
  - reflexivity.
Defined.

Lemma release_via_alias_witness :
  isLocked canonical_scn "/docs/a.qet"
    (sys_locks (sys_run canonical_scn running_scn writable_scn procs_scn held_trace
                  (sys_init empty_disk)) 0%nat) = true
  ∧ isLocked canonical_scn "/docs/a.qet"
      (sys_locks
         (sys_call canonical_scn running_scn writable_scn procs_scn
            (mkEvent 0 30 (CallUnlock "/link/a.qet"))
            (sys_run canonical_scn running_scn writable_scn procs_scn held_trace
               (sys_init empty_disk))).2 0%nat) = false.
Proof.
  split; [vm_compute; reflexivity|].
  apply (release_via_alias canonical_scn running_scn writable_scn procs_scn
           all_running_scn empty_disk held_trace 0%nat "/docs/a.qet" "/link/a.qet" 30).
  - vm_compute; reflexivity.
  - reflexivity.
Defined.

Lemma foreign_lockInfo_reads_holder_witness :
  isLocked canonical_scn "/docs/a.qet"
    (sys_locks (sys_run canonical_scn running_scn writable_scn procs_scn held_trace
                  (sys_init empty_disk)) 0%nat) = true
  ∧ (sys_call canonical_scn running_scn writable_scn procs_scn
       (mkEvent 2 30 (CallLockInfo "/link/a.qet" (mkLockInfo 0 "" "")))
       (sys_run canonical_scn running_scn writable_scn procs_scn held_trace
          (sys_init empty_disk))).1
    = RetInfo true (mkLockInfo 100 "hostA" "qelectrotech").
Proof.
  split; [vm_compute; reflexivity|].
  apply (foreign_lockInfo_reads_holder canonical_scn running_scn writable_scn procs_scn
           all_running_scn empty_disk held_trace 0%nat 2%nat "/docs/a.qet" "/link/a.qet" 30).
  - vm_compute; reflexivity.
  - reflexivity.
Defined.

Lemma handover_witness :
  isLocked canonical_scn "/docs/a.qet"
    (sys_locks (sys_run canonical_scn running_scn writable_scn procs_scn held_trace
                  (sys_init empty_disk)) 0%nat) = true
  ∧ (sys_call canonical_scn running_scn writable_scn procs_scn
       (mkEvent 2 31 (CallTryLock "/docs/a.qet"))
       (sys_call canonical_scn running_scn writable_scn procs_scn
          (mkEvent 0 30 (CallUnlock "/docs/a.qet"))
          (sys_run canonical_scn running_scn writable_scn procs_scn held_trace
             (sys_init empty_disk))).2).1 = RetBool true.
Proof.
  split; [vm_compute; reflexivity|].
  apply (handover canonical_scn running_scn writable_scn procs_scn
           all_running_scn empty_disk held_trace 0%nat 2%nat "/docs/a.qet" 30 31).
  vm_compute; reflexivity.
Defined.

Lemma lockInfo_after_release_witness :
  isLocked canonical_scn "/docs/a.qet"
    (sys_locks (sys_run canonical_scn running_scn writable_scn procs_scn held_trace
                  (sys_init empty_disk)) 0%nat) = true
  ∧ (sys_call canonical_scn running_scn writable_scn procs_scn
       (mkEvent 1 31 (CallLockInfo "/docs/a.qet" (mkLockInfo 7 "h" "app")))
       (sys_call canonical_scn running_scn writable_scn procs_scn
          (mkEvent 0 30 (CallUnlock "/docs/a.qet"))
          (sys_run canonical_scn running_scn writable_scn procs_scn held_trace
             (sys_init empty_disk))).2).1 = RetInfo false (mkLockInfo 7 "h" "app").
Proof.
  split; [vm_compute; reflexivity|].
  apply (lockInfo_after_release canonical_scn running_scn writable_scn procs_scn
           all_running_scn empty_disk held_trace 0%nat 1%nat "/docs/a.qet" 30 31).
  vm_compute; reflexivity.
Defined.

Lemma call_disk_frame_witness :
  "/docs/b.qet" ≠ canonical_scn "/link/a.qet"
  ∧ files (sys_world
       (sys_call canonical_scn running_scn writable_scn procs_scn
          (mkEvent 0 30 (CallUnlock "/link/a.qet"))
          (sys_run canonical_scn running_scn writable_scn procs_scn held_trace
             (sys_init empty_disk))).2) !! "/docs/b.qet.lock"
    = files (sys_world (sys_run canonical_scn running_scn writable_scn procs_scn
                          held_trace (sys_init empty_disk))) !! "/docs/b.qet.lock".
Proof.
  split; [vm_compute; discriminate|].
  apply (call_disk_frame canonical_scn running_scn writable_scn procs_scn
           empty_disk held_trace (mkEvent 0 30 (CallUnlock "/link/a.qet"))
           "/docs/b.qet").
  vm_compute; discriminate.
Defined.

Lemma call_table_frame_witness :
  sys_locks
    (sys_call canonical_scn running_scn writable_scn procs_scn
       (mkEvent 0 30 (CallUnlock "/docs/a.qet"))
       (sys_run canonical_scn running_scn writable_scn procs_scn held_trace
          (sys_init empty_disk))).2 2%nat !! "/docs/b.qet"
  = sys_locks (sys_run canonical_scn running_scn writable_scn procs_scn held_trace
                 (sys_init empty_disk)) 2%nat !! "/docs/b.qet".
Proof.
  apply (call_table_frame canonical_scn running_scn writable_scn procs_scn
           (mkEvent 0 30 (CallUnlock "/docs/a.qet"))
           (sys_run canonical_scn running_scn writable_scn procs_scn held_trace
              (sys_init empty_disk)) 2%nat "/docs/b.qet").
  left. simpl. lia.
Defined.

Lemma lock_unlock_round_trip_witness :
  (tryLock canonical_scn running_scn writable_scn (procs_scn 0) 10
     "/docs/a.qet" ∅ stale_disk).1.1 = true
  ∧ (unlock canonical_scn writable_scn "/docs/a.qet"
       (tryLock canonical_scn running_scn writable_scn (procs_scn 0) 10
          "/docs/a.qet" ∅ stale_disk).1.2
       (tryLock canonical_scn running_scn writable_scn (procs_scn 0) 10
          "/docs/a.qet" ∅ stale_disk).2).1 = ∅.
Proof.
  split; [vm_compute; reflexivity|].
  apply (lock_unlock_round_trip canonical_scn running_scn writable_scn (procs_scn 0) 10
           "/docs/a.qet" ∅ stale_disk).
  - vm_compute; reflexivity.
  - vm_compute; reflexivity.
Defined.


Lemma hold_persists_witness :
  isLocked canonical_scn "/docs/a.qet"
    (sys_locks (sys_run canonical_scn running_scn writable_scn procs_scn held_trace
                  (sys_init empty_disk)) 0%nat) = true
  ∧ isLocked canonical_scn "/docs/a.qet"
      (sys_locks
         (sys_call canonical_scn running_scn writable_scn procs_scn
            (mkEvent 1 30 (CallUnlock "/link/a.qet"))
            (sys_run canonical_scn running_scn writable_scn procs_scn held_trace
               (sys_init empty_disk))).2 0%nat) = true.
Proof.
  split; [vm_compute; reflexivity|].
  apply (hold_persists canonical_scn running_scn writable_scn procs_scn
           all_running_scn empty_disk held_trace 0%nat "/docs/a.qet"
           (mkEvent 1 30 (CallUnlock "/link/a.qet"))).
  - vm_compute; reflexivity.
  - vm_compute; reflexivity.
Defined.
